(** * StyleGraphs.py: recolouring of Doxygen SVG graphs with the Rose Pine palette

    Shallow embedding of [docs/doxygen/scripts/StyleGraphs.py] and the
    properties of its natural-language specification.

    The script parses an SVG file with BeautifulSoup, runs a flat sequence of
    find-and-assign loops over the parsed tree and writes the prettified tree
    back to the same path.  The parsed tree is the only mutable object that
    the loops share: a [Tag] handed out by [find_all] is a reference into
    that tree.  No statement of the script inserts, removes or moves a tag,
    so a reference is modelled as the path (child indices from the root) of
    the tag, and the tree as the store the paths point into. *)

From stdpp Require Import gmap strings list fin_maps.

Set Warnings "-register-all,-clear-no-such-hyp".

Open Scope string_scope.
Open Scope list_scope.

(** ** The parsed document *)

(** A BeautifulSoup node: a [Tag] with its name, its attribute dictionary
    and its contents, or a [NavigableString].  The attribute dictionary is a
    finite map: the script never depends on the order of the attributes. *)
Inductive node : Type :=
| Tag (name : string) (attrs : gmap string string) (contents : list node)
| NavigableString (s : string).

Section node_induction.
Variable P : node → Prop.
Hypothesis Htag : ∀ name attrs contents,
  Forall P contents → P (Tag name attrs contents).
Hypothesis Hstr : ∀ s, P (NavigableString s).

Fixpoint node_induction (n : node) : P n :=
  match n with
  | Tag name attrs contents =>
      Htag name attrs contents
        ((fix all (cs : list node) : Forall P cs :=
            match cs with
            | [] => List.Forall_nil P
            | c :: cs' => List.Forall_cons P c cs' (node_induction c) (all cs')
            end) contents)
  | NavigableString s => Hstr s
  end.
End node_induction.

(** A reference to a node: the child indices leading to it from the root. *)
Abbreviation ref := (list nat).

Fixpoint subtree (p : ref) (n : node) : option node :=
  match p with
  | [] => Some n
  | i :: p' =>
      match n with
      | Tag _ _ contents => c ← contents !! i; subtree p' c
      | NavigableString _ => None
      end
  end.

(** In-place mutation of the node a reference points to. *)
Fixpoint update (p : ref) (f : node → node) (n : node) : node :=
  match p with
  | [] => f n
  | i :: p' =>
      match n with
      | Tag name attrs contents => Tag name attrs (alter (update p' f) i contents)
      | NavigableString _ => n
      end
  end.

(** [tag[key] = value] *)
Definition set_attr (key value : string) (n : node) : node :=
  match n with
  | Tag name attrs contents => Tag name (<[key := value]> attrs) contents
  | NavigableString _ => n
  end.

(** The name and the attributes of the tag at [p], if [p] is a tag. *)
Definition label (p : ref) (n : node) : option (string * gmap string string) :=
  match subtree p n with
  | Some (Tag name attrs _) => Some (name, attrs)
  | _ => None
  end.

(** ** Searching: [find_all] and [find] *)

(** The filter of [find_all(name, **attrs)]: an optional tag name and the
    attribute values that have to be equal.  Only tags are matched. *)
Record selector := Sel {
  sel_name : option string;
  sel_attrs : list (string * string)
}.

Definition matches_label (s : selector) (name : string)
    (attrs : gmap string string) : bool :=
  match sel_name s with
  | None => true
  | Some x => bool_decide (name = x)
  end
  && forallb (λ kv, bool_decide (attrs !! kv.1 = Some kv.2)) (sel_attrs s).

Definition matches (s : selector) (n : node) : bool :=
  match n with
  | Tag name attrs _ => matches_label s name attrs
  | NavigableString _ => false
  end.

(** The descendants of a list of siblings, in document order: each child
    before its own descendants, before its next sibling. *)
Fixpoint descend (s : selector) (below : node → list ref) (i : nat)
    (cs : list node) : list ref :=
  match cs with
  | [] => []
  | c :: cs' =>
      (if matches s c then [[i]] else [])
        ++ ((i ::.) <$> below c) ++ descend s below (S i) cs'
  end.

(** The matching proper descendants of [n], as references relative to [n]. *)
Fixpoint find_all_below (s : selector) (n : node) : list ref :=
  match n with
  | Tag _ _ contents => descend s (find_all_below s) 0 contents
  | NavigableString _ => []
  end.

(** ** Strings: [.string], [.text] and [str.replace] *)

(** [tag.string]: the single string below a chain of only children. *)
Fixpoint dot_string (n : node) : option ref :=
  match n with
  | Tag _ _ [c] =>
      match c with
      | NavigableString _ => Some [0]
      | Tag _ _ _ => (0 ::.) <$> dot_string c
      end
  | _ => None
  end.

(** [tag.text]: all strings of the subtree, concatenated. *)
Fixpoint dot_text (n : node) : string :=
  match n with
  | Tag _ _ contents => foldr (λ c acc, dot_text c +:+ acc) "" contents
  | NavigableString s => s
  end.

Fixpoint is_prefix (p s : string) : bool :=
  match p, s with
  | EmptyString, _ => true
  | String a p', String b s' => bool_decide (a = b) && is_prefix p' s'
  | String _ _, EmptyString => false
  end.

(** [str.replace] for a nonempty [old]: scan from the left, and at each
    occurrence of [old] emit [new] and skip the occurrence.  [skip] counts
    the characters of a matched occurrence that are still to be skipped. *)
Fixpoint replace_from (old new : string) (skip : nat) (s : string) : string :=
  match s with
  | EmptyString => EmptyString
  | String c s' =>
      match skip with
      | S k => replace_from old new k s'
      | O =>
          if is_prefix old s
          then new +:+ replace_from old new (String.length old - 1) s'
          else String c (replace_from old new 0 s')
      end
  end.

(** With an empty [old], Python puts [new] before every character and at
    the end. *)
Fixpoint interleave (new s : string) : string :=
  match s with
  | EmptyString => new
  | String c s' => new +:+ String c (interleave new s')
  end.

Definition str_replace (s old new : string) : string :=
  match old with
  | EmptyString => interleave new s
  | String _ _ => replace_from old new 0 s
  end.

Example str_replace_css :
  str_replace "a { stroke: red; fill: red; }" "stroke: red" "stroke: #e0def4"
  = "a { stroke: #e0def4; fill: red; }".
Proof. reflexivity. Qed.

Example str_replace_nonoverlapping : str_replace "aaa" "aa" "b" = "ba".
Proof. reflexivity. Qed.

Example find_all_document_order :
  find_all_below (Sel (Some "g") [])
    (Tag "svg" ∅ [Tag "g" ∅ [Tag "g" ∅ []]; NavigableString "x"; Tag "g" ∅ []])
  = [[0]; [0; 0]; [2]].
Proof. reflexivity. Qed.

(** ** The interpreter state and the Python statements of the script *)

(** The exceptions the statements of [rose_pine_ify] can raise. *)
Inductive exn : Type :=
| TypeError        (* item assignment on [None] *)
| AttributeError   (* attribute access on [None] *)
| KeyError         (* missing dictionary key *)
| OSError          (* the file cannot be opened *)
| ParserError.     (* the file cannot be parsed *)

(** The objects [rose_pine_ify] can reach: the module-level dictionary
    [rose_pine] and the tree [soup]. *)
Record state := State {
  globals_rose_pine : gmap string string;
  soup : node
}.

Inductive result (A : Type) : Type :=
| Ok (a : A) (st : state)
| Raise (e : exn).
Arguments Ok {A} a st.
Arguments Raise {A} e.

Definition M (A : Type) : Type := state → result A.

#[global] Instance M_ret : MRet M := λ A a st, Ok a st.
#[global] Instance M_bind : MBind M := λ A B f m st,
  match m st with
  | Ok a st' => f a st'
  | Raise e => Raise e
  end.

(** [for x in xs: body] *)
Fixpoint for_each {A : Type} (xs : list A) (body : A → M unit) : M unit :=
  match xs with
  | [] => mret tt
  | x :: xs' => body x ;; for_each xs' body
  end.

Definition find_all_at (e : ref) (s : selector) (d : node) : list ref :=
  match subtree e d with
  | Some n => (e ++.) <$> find_all_below s n
  | None => []
  end.

(** [e.find_all(name, **attrs)]: the result list is built before the loop
    over it starts. *)
Definition find_all (e : ref) (s : selector) : M (list ref) :=
  λ st, Ok (find_all_at e s (soup st)) st.

(** [e.find(name, **attrs)]: the first match, or [None]. *)
Definition find (e : ref) (s : selector) : M (option ref) :=
  λ st, Ok (head (find_all_at e s (soup st))) st.

(** [e[key] = value]; [None] does not support item assignment. *)
Definition setitem (e : option ref) (key value : string) : M unit :=
  λ st,
    match e with
    | Some p =>
        Ok tt (State (globals_rose_pine st) (update p (set_attr key value) (soup st)))
    | None => Raise TypeError
    end.

(** [e.has_attr(key)] *)
Definition has_attr (e : ref) (key : string) : M bool :=
  λ st,
    Ok (match label e (soup st) with
        | Some (_, attrs) => bool_decide (is_Some (attrs !! key))
        | None => false
        end) st.

(** [rose_pine[key]] *)
Definition rose_pine_getitem (key : string) : M string :=
  λ st,
    match globals_rose_pine st !! key with
    | Some v => Ok v st
    | None => Raise KeyError
    end.

(** [e.string] *)
Definition string_of (e : ref) : M (option ref) :=
  λ st, Ok (n ← subtree e (soup st); (e ++.) <$> dot_string n) st.

(** [e.text] *)
Definition text_of (e : ref) : M string :=
  λ st, Ok (from_option dot_text "" (subtree e (soup st))) st.

(** Looking up the method [replace_with] on the value of [e.string]. *)
Definition getattr_replace_with (s : option ref) : M ref :=
  λ st,
    match s with
    | Some p => Ok p st
    | None => Raise AttributeError
    end.

(** [s.replace_with(new)]: the string [s] is replaced, in its parent, by a
    string with the text [new]. *)
Definition replace_with (s : ref) (new : string) : M unit :=
  λ st,
    Ok tt (State (globals_rose_pine st)
             (update s (λ _, NavigableString new) (soup st))).

(** ** The palette *)

Definition rose_pine : gmap string string :=
  list_to_map [
    ("base", "#191724");
    ("surface", "#1f1d2e");
    ("overlay", "#26233a");
    ("muted", "#6e6a86");
    ("subtle", "#908caa");
    ("text", "#e0def4");
    ("love", "#eb6f92");
    ("gold", "#f6c177");
    ("rose", "#ebbcba");
    ("pine", "#31748f");
    ("foam", "#9ccfd8");
    ("iris", "#c4a7e7");
    ("highlight low", "#21202e");
    ("highlight med", "#403d52");
    ("highlight high", "#524f67")
  ].

(** ** The rules of [rose_pine_ify], in the order of the source *)

(** Background *)
Definition background : M unit :=
  polygons ← find_all []
    (Sel (Some "polygon") [("fill", "white"); ("stroke", "transparent")]);
  for_each polygons (λ polygon,
    setitem (Some polygon) "fill" "none").

(** Base classes *)
Definition base_classes : M unit :=
  polygons ← find_all []
    (Sel (Some "polygon") [("fill", "white"); ("stroke", "#666666")]);
  for_each polygons (λ polygon,
    v ← rose_pine_getitem "gold";
    setitem (Some polygon) "fill" v ;;
    setitem (Some polygon) "stroke" "none").

(** Undocumented classes *)
Definition undocumented_classes : M unit :=
  polygons ← find_all []
    (Sel (Some "polygon") [("fill", "#e0e0e0"); ("stroke", "#999999")]);
  for_each polygons (λ polygon,
    v ← rose_pine_getitem "rose";
    setitem (Some polygon) "fill" v ;;
    setitem (Some polygon) "stroke" "none").

(** Inherited classes *)
Definition inherited_classes : M unit :=
  polygons ← find_all []
    (Sel (Some "polygon") [("fill", "#999999"); ("stroke", "#666666")]);
  for_each polygons (λ polygon,
    v ← rose_pine_getitem "iris";
    setitem (Some polygon) "fill" v ;;
    setitem (Some polygon) "stroke" "none").

(** Truncated classes *)
Definition truncated_classes : M unit :=
  polygons ← find_all []
    (Sel (Some "polygon") [("fill", "#fff0f0"); ("stroke", "red")]);
  for_each polygons (λ polygon,
    v ← rose_pine_getitem "muted";
    setitem (Some polygon) "fill" v ;;
    setitem (Some polygon) "stroke" "none").

(** Text near arrows *)
Definition text_near_arrows : M unit :=
  texts ← find_all [] (Sel (Some "text") [("fill", "grey")]);
  for_each texts (λ text,
    v ← rose_pine_getitem "text";
    setitem (Some text) "fill" v).

(** Text in classes *)
Definition text_in_classes : M unit :=
  elements ← find_all [] (Sel (Some "text") []);
  for_each elements (λ element,
    b ← has_attr element "fill";
    if negb b
    then v ← rose_pine_getitem "overlay"; setitem (Some element) "fill" v
    else mret tt).

(** One arrow colour: first the elements filled with it, then the elements
    stroked with it. *)
Definition arrow (colour role : string) : M unit :=
  (elements ← find_all [] (Sel None [("fill", colour)]);
   for_each elements (λ element,
     v ← rose_pine_getitem role;
     setitem (Some element) "fill" v)) ;;
  (elements ← find_all [] (Sel None [("stroke", colour)]);
   for_each elements (λ element,
     v ← rose_pine_getitem role;
     setitem (Some element) "stroke" v)).

(** Arrows: public inheritance, template, used class, private inheritance,
    protected inheritance *)
Definition arrows : M unit :=
  arrow "#63b8ff" "subtle" ;;
  arrow "orange" "text" ;;
  arrow "#9a32cd" "iris" ;;
  arrow "#8b1a1a" "love" ;;
  arrow "darkgreen" "gold".

(** The inline style sheets *)
Definition style_sheets : M unit :=
  elements ← find_all [] (Sel (Some "style") [("type", "text/css")]);
  for_each elements (λ element,
    s ← string_of element;
    s ← getattr_replace_with s;
    t ← text_of element;
    v1 ← rose_pine_getitem "text";
    v2 ← rose_pine_getitem "text";
    replace_with s
      (str_replace (str_replace t "stroke: red" ("stroke: " +:+ v1))
         "fill: red" ("fill: " +:+ v2))).

(** The navigator of zoomable graphs *)
Definition navigator : M unit :=
  elements ← find_all [] (Sel (Some "g") [("id", "navigator")]);
  for_each elements (λ element,
    v ← rose_pine_getitem "pine";
    setitem (Some element) "fill" v ;;
    child_element ← find element (Sel (Some "rect") [("fill", "#f2f5e9")]);
    v ← rose_pine_getitem "overlay";
    setitem child_element "fill" v ;;
    setitem child_element "fill-opacity" "1.0" ;;
    setitem child_element "stroke" "none").

(** The buttons of the navigator *)
Definition buttons : M unit :=
  uses ← find_all [] (Sel (Some "use") [("fill", "#404040")]);
  for_each uses (λ use,
    v ← rose_pine_getitem "pine";
    setitem (Some use) "fill" v ;;
    set ← find use (Sel (Some "set") []);
    v ← rose_pine_getitem "iris";
    setitem set "to" v).

(** The arrow that leaves the navigator; some files have none *)
Definition arrow_out : M unit :=
  g ← find [] (Sel (Some "g") [("id", "arrow_out")]);
  match g with
  | Some g =>
      rect ← find g (Sel (Some "rect") []);
      v ← rose_pine_getitem "pine";
      setitem rect "fill" v ;;
      setitem rect "stroke" "none" ;;
      path ← find g (Sel (Some "path") []);
      v ← rose_pine_getitem "text";
      setitem path "style" ("fill:" +:+ v)
  | None => mret tt
  end.

(** The body of [rose_pine_ify] between parsing and writing back. *)
Definition recolor : M unit :=
  background ;;
  base_classes ;;
  undocumented_classes ;;
  inherited_classes ;;
  truncated_classes ;;
  text_near_arrows ;;
  text_in_classes ;;
  arrows ;;
  style_sheets ;;
  navigator ;;
  buttons ;;
  arrow_out.

(** ** The rule catalogue

    Every loop of [recolor] has one of two shapes.  An _assignment rule_
    selects tags, optionally skips those that already have some attribute,
    assigns attributes of the selected tag and then attributes of nested
    tags found below it.  The _style sheet rule_ rewrites the text of the
    selected tags.  The catalogue lists the sixteen rules of the
    specification (rules 8 to 12 are two loops each) as data; [run_rule]
    gives a catalogue entry its meaning, and [recolor_catalogue] below shows
    that running the catalogue is running the script. *)

(** The right-hand side of an assignment. *)
Inductive value : Type :=
| Lit (s : string)                      (* 'none' *)
| Pal (role : string)                   (* rose_pine['gold'] *)
| Fmt (before role : string).           (* f'fill:{rose_pine["text"]}' *)

Definition eval (v : value) : M string :=
  match v with
  | Lit s => mret s
  | Pal role => rose_pine_getitem role
  | Fmt before role => c ← rose_pine_getitem role; mret (before +:+ c)
  end.

Inductive rule : Type :=
| Assign (first : bool)                  (* [find] instead of [find_all] *)
    (sel : selector)
    (unless : option string)             (* [if not e.has_attr(key)] *)
    (own : list (string * value))
    (nested : list (selector * list (string * value)))
| Retext (sel : selector) (subst : list (string * value)).

Definition assign (e : option ref) (kv : string * value) : M unit :=
  v ← eval kv.2; setitem e kv.1 v.

Definition run_nested (e : ref) (n : selector * list (string * value)) : M unit :=
  c ← find e n.1; for_each n.2 (assign c).

Definition run_body (unless : option string) (own : list (string * value))
    (nested : list (selector * list (string * value))) (e : ref) : M unit :=
  b ← match unless with
      | Some key => has_attr e key
      | None => mret false
      end;
  if b : bool then mret tt
  else for_each own (assign (Some e)) ;; for_each nested (run_nested e).

Fixpoint evals (subst : list (string * value)) : M (list (string * string)) :=
  match subst with
  | [] => mret []
  | (old, v) :: subst' =>
      new ← eval v; rest ← evals subst'; mret ((old, new) :: rest)
  end.

Definition str_replaces (t : string) (subst : list (string * string)) : string :=
  foldl (λ t on, str_replace t on.1 on.2) t subst.

Definition run_retext (subst : list (string * value)) (e : ref) : M unit :=
  s ← string_of e;
  s ← getattr_replace_with s;
  t ← text_of e;
  subst ← evals subst;
  replace_with s (str_replaces t subst).

Definition run_rule (r : rule) : M unit :=
  match r with
  | Assign false sel unless own nested =>
      es ← find_all [] sel; for_each es (run_body unless own nested)
  | Assign true sel unless own nested =>
      e ← find [] sel;
      match e with
      | Some e => run_body unless own nested e
      | None => mret tt
      end
  | Retext sel subst =>
      es ← find_all [] sel; for_each es (run_retext subst)
  end.

Definition polygon_rule (fill stroke : string) (own : list (string * value)) : rule :=
  Assign false (Sel (Some "polygon") [("fill", fill); ("stroke", stroke)])
    None own [].

Definition arrow_rules (colour role : string) : list rule :=
  [ Assign false (Sel None [("fill", colour)]) None [("fill", Pal role)] [];
    Assign false (Sel None [("stroke", colour)]) None [("stroke", Pal role)] [] ].

Definition rule_background : rule :=
  polygon_rule "white" "transparent" [("fill", Lit "none")].
Definition rule_base_classes : rule :=
  polygon_rule "white" "#666666" [("fill", Pal "gold"); ("stroke", Lit "none")].
Definition rule_undocumented_classes : rule :=
  polygon_rule "#e0e0e0" "#999999" [("fill", Pal "rose"); ("stroke", Lit "none")].
Definition rule_inherited_classes : rule :=
  polygon_rule "#999999" "#666666" [("fill", Pal "iris"); ("stroke", Lit "none")].
Definition rule_truncated_classes : rule :=
  polygon_rule "#fff0f0" "red" [("fill", Pal "muted"); ("stroke", Lit "none")].
Definition rule_text_near_arrows : rule :=
  Assign false (Sel (Some "text") [("fill", "grey")]) None [("fill", Pal "text")] [].
Definition rule_text_in_classes : rule :=
  Assign false (Sel (Some "text") []) (Some "fill") [("fill", Pal "overlay")] [].
Definition rules_arrows : list rule :=
  arrow_rules "#63b8ff" "subtle" ++ arrow_rules "orange" "text"
    ++ arrow_rules "#9a32cd" "iris" ++ arrow_rules "#8b1a1a" "love"
    ++ arrow_rules "darkgreen" "gold".
Definition rule_style_sheets : rule :=
  Retext (Sel (Some "style") [("type", "text/css")])
    [("stroke: red", Fmt "stroke: " "text"); ("fill: red", Fmt "fill: " "text")].
Definition rule_navigator : rule :=
  Assign false (Sel (Some "g") [("id", "navigator")]) None
    [("fill", Pal "pine")]
    [(Sel (Some "rect") [("fill", "#f2f5e9")],
      [("fill", Pal "overlay"); ("fill-opacity", Lit "1.0"); ("stroke", Lit "none")])].
Definition rule_buttons : rule :=
  Assign false (Sel (Some "use") [("fill", "#404040")]) None
    [("fill", Pal "pine")]
    [(Sel (Some "set") [], [("to", Pal "iris")])].
Definition rule_arrow_out : rule :=
  Assign true (Sel (Some "g") [("id", "arrow_out")]) None []
    [(Sel (Some "rect") [], [("fill", Pal "pine"); ("stroke", Lit "none")]);
     (Sel (Some "path") [], [("style", Fmt "fill:" "text")])].

Definition catalogue : list rule :=
  [rule_background; rule_base_classes; rule_undocumented_classes;
   rule_inherited_classes; rule_truncated_classes; rule_text_near_arrows;
   rule_text_in_classes]
  ++ rules_arrows
  ++ [rule_style_sheets; rule_navigator; rule_buttons; rule_arrow_out].

Definition run_rules (rs : list rule) : M unit := for_each rs run_rule.

(** ** Files: [rose_pine_ify] and the loop over the matched paths *)

(** The two BeautifulSoup entry points the script relies on, as functions of
    their input: [bs4.BeautifulSoup(text, features='xml')], which may fail,
    and [soup.prettify("utf-8")]. *)
Record bs4 := Bs4 {
  parse : string → option node;
  prettify : node → string
}.

(** What persists between two calls of [rose_pine_ify]: the module-level
    dictionary and the file system. *)
Record world := World {
  module_rose_pine : gmap string string;
  files : gmap string string
}.

Inductive outcome : Type :=
| Done (w : world)
| Failed (e : exn) (w : world).

Definition rose_pine_ify (lib : bs4) (svg_file_path : string) (w : world) : outcome :=
  match files w !! svg_file_path with
  | None => Failed OSError w
  | Some text =>
      match parse lib text with
      | None => Failed ParserError w
      | Some d =>
          match recolor (State (module_rose_pine w) d) with
          | Raise e => Failed e w
          | Ok _ st =>
              Done (World (globals_rose_pine st)
                      (<[svg_file_path := prettify lib (soup st)]> (files w)))
          end
      end
  end.

(** [for svg_file_path in tqdm(svg_file_paths): rose_pine_ify(svg_file_path)] *)
Fixpoint main_loop (lib : bs4) (svg_file_paths : list string) (w : world) : outcome :=
  match svg_file_paths with
  | [] => Done w
  | svg_file_path :: rest =>
      match rose_pine_ify lib svg_file_path w with
      | Done w' => main_loop lib rest w'
      | Failed e w' => Failed e w'
      end
  end.

(** * Properties *)

(** ** References into the tree *)

Lemma subtree_app p q n : subtree (p ++ q) n = subtree p n ≫= subtree q.
Proof.
  revert n. induction p as [|i p IH]; intros n; simpl; [done|].
  destruct n as [nm a cs|s]; [|done].
  destruct (cs !! i) as [c|]; simpl; [apply IH|done].
Qed.

Lemma update_invalid p f n : subtree p n = None → update p f n = n.
Proof.
  revert n. induction p as [|i p IH]; intros n; simpl; [done|].
  destruct n as [nm a cs|s]; [|done]. intros H. f_equal.
  apply list_eq. intros j. destruct (decide (i = j)) as [->|Hne].
  - rewrite list_lookup_alter_eq. destruct (cs !! j) as [c|] eqn:E; simpl in *; [|done].
    by rewrite IH.
  - by rewrite list_lookup_alter_ne.
Qed.

Lemma update_id p f n m : subtree p n = Some m → f m = m → update p f n = n.
Proof.
  revert n. induction p as [|i p IH]; intros n; simpl.
  - by intros [= ->].
  - destruct n as [nm a cs|s]; [|done]. intros H Hf. f_equal.
    apply list_eq. intros j. destruct (decide (i = j)) as [->|Hne].
    + rewrite list_lookup_alter_eq. destruct (cs !! j) as [c|] eqn:E; simpl in *; [|done].
      by rewrite IH.
    + by rewrite list_lookup_alter_ne.
Qed.

Lemma update_compose p f g n : update p g (update p f n) = update p (g ∘ f) n.
Proof.
  revert n. induction p as [|i p IH]; intros n; simpl; [done|].
  destruct n as [nm a cs|s]; [|done]. simpl. f_equal.
  apply list_eq. intros j. destruct (decide (i = j)) as [->|Hne].
  - rewrite !list_lookup_alter_eq. destruct (cs !! j) as [c|]; simpl; [|done].
    by rewrite IH.
  - by rewrite !list_lookup_alter_ne.
Qed.

Lemma update_ext p f g n : (∀ m, f m = g m) → update p f n = update p g n.
Proof.
  intros H. revert n. induction p as [|i p IH]; intros n; simpl; [done|].
  destruct n as [nm a cs|s]; [|done]. f_equal. by apply list_alter_ext.
Qed.

(** [below e p] is [Some r] when [p = e ++ r]. *)
Fixpoint below (e p : ref) : option ref :=
  match e, p with
  | [], _ => Some p
  | i :: e', j :: p' => if decide (i = j) then below e' p' else None
  | _ :: _, [] => None
  end.

Lemma below_Some e p r : below e p = Some r ↔ p = (e ++ r)%list.
Proof.
  revert p. induction e as [|i e IH]; intros p; simpl.
  - split; [by intros [= ->]|by intros ->].
  - destruct p as [|j p]; [done|]. case_decide as Hij.
    + subst. rewrite IH. split; [by intros ->|by intros [= ->]].
    + split; [done|]. intros [= -> _]. done.
Qed.

(** A mutation [f] keeps the contents of the node at [p]. *)
Definition keeps_contents (f : node → node) (p : ref) (d : node) : Prop :=
  ∀ n r, subtree p d = Some n → r ≠ [] → subtree r (f n) = subtree r n.

Lemma subtree_update e p f d :
  keeps_contents f p d →
  subtree e (update p f d)
  = match below e p with
    | Some r => update r f <$> subtree e d
    | None => subtree e d
    end.
Proof.
  revert p d. induction e as [|j e IH]; intros p d Hk; [done|].
  destruct p as [|i p].
  - simpl below. simpl update. by apply Hk.
  - simpl below. destruct d as [nm a cs|s].
    2: { simpl. destruct (decide (j = i)); [|done]. by destruct (below e p). }
    simpl. destruct (decide (j = i)) as [->|Hne].
    + rewrite list_lookup_alter_eq. destruct (cs !! i) as [c|] eqn:E; simpl.
      * apply IH. intros n r Hn Hr. apply Hk; [|done]. simpl. by rewrite E.
      * by destruct (below e p).
    + by rewrite list_lookup_alter_ne.
Qed.

(** Mutations of the attribute dictionary only. *)
Definition on_attrs (g : gmap string string → gmap string string) (n : node) : node :=
  match n with
  | Tag name attrs contents => Tag name (g attrs) contents
  | NavigableString _ => n
  end.

Lemma set_attr_on_attrs key value : set_attr key value = on_attrs (<[key := value]>).
Proof. done. Qed.

Lemma on_attrs_keeps_contents g p d : keeps_contents (on_attrs g) p d.
Proof. intros [nm a cs|s] [|i r] _ Hr; done. Qed.

Lemma replace_string_keeps_contents t p d s :
  subtree p d = Some (NavigableString s) →
  keeps_contents (λ _, NavigableString t) p d.
Proof. intros H n [|i r] Hn Hr; [done|]. rewrite H in Hn. by injection Hn as <-. Qed.

Definition root_label (n : node) : option (string * gmap string string) :=
  match n with
  | Tag name attrs _ => Some (name, attrs)
  | NavigableString _ => None
  end.

Lemma label_root p d : label p d = subtree p d ≫= root_label.
Proof. unfold label. by destruct (subtree p d) as [[]|]. Qed.

Lemma root_label_update_cons i r f n : root_label (update (i :: r) f n) = root_label n.
Proof. by destruct n. Qed.

Lemma below_nil e p : below e p = Some [] ↔ e = p.
Proof. rewrite below_Some. rewrite app_nil_r. naive_solver. Qed.

Lemma label_update_attrs q p g d :
  label q (update p (on_attrs g) d)
  = if decide (q = p) then (λ l, (l.1, g l.2)) <$> label q d else label q d.
Proof.
  rewrite !label_root, subtree_update by apply on_attrs_keeps_contents.
  destruct (below q p) as [[|i r]|] eqn:E.
  - apply below_nil in E as ->. rewrite decide_True by done.
    by destruct (subtree p d) as [[]|].
  - rewrite decide_False.
    + destruct (subtree q d) as [n|]; simpl; [|done]. apply root_label_update_cons.
    + intros ->. assert (below p p = Some []) as E' by by apply below_nil. congruence.
  - rewrite decide_False; [done|]. intros ->.
    assert (below p p = Some []) as E' by by apply below_nil. congruence.
Qed.

Lemma label_update_string q p t d s :
  subtree p d = Some (NavigableString s) →
  label q (update p (λ _, NavigableString t) d) = label q d.
Proof.
  intros H. rewrite !label_root, subtree_update by by eapply replace_string_keeps_contents.
  destruct (below q p) as [[|i r]|] eqn:E; [| |done].
  - apply below_nil in E as ->. by rewrite H.
  - destruct (subtree q d) as [n|]; simpl; [|done]. apply root_label_update_cons.
Qed.

(** ** What [find_all] returns *)

Lemma elem_of_descend s F j cs p :
  p ∈ descend s F j cs ↔
  ∃ i c r, p = (j + i) :: r ∧ cs !! i = Some c
           ∧ (r = [] ∧ matches s c = true ∨ r ∈ F c).
Proof.
  revert j. induction cs as [|c cs IH]; intros j; simpl.
  - rewrite elem_of_nil. naive_solver.
  - rewrite !elem_of_app, list_elem_of_fmap, IH. split.
    + intros [H|[(r & -> & Hr)|(i & c' & r & -> & Hc & H)]].
      * destruct (matches s c) eqn:E; [|by apply elem_of_nil in H].
        apply list_elem_of_singleton in H as ->.
        exists 0, c, []. rewrite Nat.add_0_r. naive_solver.
      * exists 0, c, r. rewrite Nat.add_0_r. naive_solver.
      * exists (S i), c', r. split; [f_equal; lia|done].
    + intros (i & c' & r & -> & Hc & H). destruct i as [|i]; simpl in Hc.
      * injection Hc as ->. rewrite Nat.add_0_r. destruct H as [[-> ->]|H].
        -- left. apply list_elem_of_singleton. done.
        -- right. left. eauto.
      * right. right. exists i, c', r. split; [f_equal; lia|done].
Qed.

Lemma elem_of_find_all_below s n p :
  p ∈ find_all_below s n ↔
  p ≠ [] ∧ ∃ c, subtree p n = Some c ∧ matches s c = true.
Proof.
  revert p. induction n as [nm a cs IH|t] using node_induction; intros p; simpl.
  - rewrite elem_of_descend. split.
    + intros (i & c & r & -> & Hc & H). split; [done|]. simpl. rewrite Hc. simpl.
      destruct H as [[-> ?]|H]; [eauto|].
      rewrite Forall_lookup in IH. apply (IH _ _ Hc) in H as [_ H]. done.
    + intros [Hp (c & Hc & Hm)]. destruct p as [|i r]; [done|]. simpl in Hc.
      destruct (cs !! i) as [c'|] eqn:E; simpl in Hc; [|done].
      exists i, c', r. split; [done|]. split; [done|].
      destruct r as [|k r]; [left; naive_solver|right].
      rewrite Forall_lookup in IH. apply (IH _ _ E). split; [done|]. eauto.
  - rewrite elem_of_nil. split; [done|]. intros [Hp (c & Hc & _)].
    by destruct p.
Qed.

Definition matches_at (s : selector) (p : ref) (d : node) : bool :=
  match label p d with
  | Some (name, attrs) => matches_label s name attrs
  | None => false
  end.

Lemma matches_at_subtree s p d :
  matches_at s p d = true ↔ ∃ c, subtree p d = Some c ∧ matches s c = true.
Proof.
  unfold matches_at, label. destruct (subtree p d) as [[nm a cs|t]|]; simpl; naive_solver.
Qed.

Lemma elem_of_find_all_at e s d p :
  p ∈ find_all_at e s d ↔
  ∃ r, p = (e ++ r)%list ∧ r ≠ [] ∧ matches_at s p d = true.
Proof.
  unfold find_all_at. setoid_rewrite matches_at_subtree.
  destruct (subtree e d) as [n|] eqn:E.
  - rewrite list_elem_of_fmap. setoid_rewrite elem_of_find_all_below. split.
    + intros (r & -> & Hr & c & Hc & Hm). exists r. split; [done|]. split; [done|].
      exists c. by rewrite subtree_app, E.
    + intros (r & -> & Hr & c & Hc & Hm). exists r. split; [done|]. split; [done|].
      exists c. by rewrite subtree_app, E in Hc.
  - rewrite elem_of_nil. split; [done|]. intros (r & -> & Hr & c & Hc & Hm).
    by rewrite subtree_app, E in Hc.
Qed.

Lemma elem_of_find_all_root s d p :
  p ∈ find_all_at [] s d ↔ p ≠ [] ∧ matches_at s p d = true.
Proof. rewrite elem_of_find_all_at. simpl. naive_solver. Qed.

(** ** Running the catalogue is running the script *)

Lemma for_each_ext {A} (xs : list A) (f g : A → M unit) st :
  (∀ x st', f x st' = g x st') → for_each xs f st = for_each xs g st.
Proof.
  intros H. revert st. induction xs as [|x xs IH]; intros st; simpl; [done|].
  unfold mbind, M_bind. rewrite H. destruct (g x st); [apply IH|done].
Qed.

Lemma for_each_app {A} (xs ys : list A) (f : A → M unit) st :
  for_each (xs ++ ys) f st = (for_each xs f ;; for_each ys f) st.
Proof.
  revert st. induction xs as [|x xs IH]; intros st; simpl.
  - done.
  - unfold mbind, M_bind. destruct (f x st) as [[] st'|]; [|done]. apply IH.
Qed.

Ltac unfold_script :=
  unfold run_rule, run_body, run_retext, run_nested, assign, eval, evals,
    find_all, find, setitem, has_attr, rose_pine_getitem, string_of,
    getattr_replace_with, text_of, replace_with, str_replaces,
    mbind, M_bind, mret, M_ret.

Ltac same_body :=
  intros;
  repeat first [ done | progress (unfold_script; simpl in *) | case_match; simplify_eq ].

Lemma background_rule st : background st = run_rule rule_background st.
Proof. unfold background. unfold_script. simpl. apply for_each_ext. same_body. Qed.

Lemma base_classes_rule st : base_classes st = run_rule rule_base_classes st.
Proof. unfold base_classes. unfold_script. simpl. apply for_each_ext. same_body. Qed.

Lemma undocumented_classes_rule st :
  undocumented_classes st = run_rule rule_undocumented_classes st.
Proof. unfold undocumented_classes. unfold_script. simpl. apply for_each_ext. same_body. Qed.

Lemma inherited_classes_rule st :
  inherited_classes st = run_rule rule_inherited_classes st.
Proof. unfold inherited_classes. unfold_script. simpl. apply for_each_ext. same_body. Qed.

Lemma truncated_classes_rule st :
  truncated_classes st = run_rule rule_truncated_classes st.
Proof. unfold truncated_classes. unfold_script. simpl. apply for_each_ext. same_body. Qed.

Lemma text_near_arrows_rule st :
  text_near_arrows st = run_rule rule_text_near_arrows st.
Proof. unfold text_near_arrows. unfold_script. simpl. apply for_each_ext. same_body. Qed.

Lemma text_in_classes_rule st :
  text_in_classes st = run_rule rule_text_in_classes st.
Proof. unfold text_in_classes. unfold_script. simpl. apply for_each_ext. same_body. Qed.

Lemma bind_ext {A B} (m m' : M A) (k k' : A → M B) st :
  m st = m' st → (∀ a st', k a st' = k' a st') → (m ≫= k) st = (m' ≫= k') st.
Proof. intros Hm Hk. unfold mbind, M_bind. rewrite Hm. by destruct (m' st). Qed.

Lemma bind_ret_tt (m : M unit) st : (m ;; mret tt) st = m st.
Proof. unfold mbind, M_bind. by destruct (m st) as [[] ?|]. Qed.

Lemma arrow_rule colour role st :
  arrow colour role st = run_rules (arrow_rules colour role) st.
Proof.
  unfold arrow, run_rules, arrow_rules. simpl. apply bind_ext.
  - unfold_script. simpl. apply for_each_ext. same_body.
  - intros _ st'. rewrite bind_ret_tt.
    unfold_script. simpl. apply for_each_ext. same_body.
Qed.

Lemma style_sheets_rule st : style_sheets st = run_rule rule_style_sheets st.
Proof. unfold style_sheets. unfold_script. simpl. apply for_each_ext. same_body. Qed.

Lemma navigator_rule st : navigator st = run_rule rule_navigator st.
Proof. unfold navigator. unfold_script. simpl. apply for_each_ext. same_body. Qed.

Lemma buttons_rule st : buttons st = run_rule rule_buttons st.
Proof. unfold buttons. unfold_script. simpl. apply for_each_ext. same_body. Qed.

Lemma arrow_out_rule st : arrow_out st = run_rule rule_arrow_out st.
Proof. unfold arrow_out. same_body. Qed.

Lemma run_rules_cons r rs st : run_rules (r :: rs) st = (run_rule r ;; run_rules rs) st.
Proof. done. Qed.

Lemma run_rules_app rs rs' st :
  run_rules (rs ++ rs') st = (run_rules rs ;; run_rules rs') st.
Proof. apply for_each_app. Qed.

Lemma arrows_rules st : arrows st = run_rules rules_arrows st.
Proof.
  unfold arrows, rules_arrows.
  repeat (rewrite run_rules_app; apply bind_ext; [apply arrow_rule|intros _ ?]).
  apply arrow_rule.
Qed.

Lemma recolor_catalogue st : recolor st = run_rules catalogue st.
Proof.
  unfold recolor, catalogue. cbn [app].
  rewrite run_rules_cons. apply bind_ext; [apply background_rule|intros _ ?].
  rewrite run_rules_cons. apply bind_ext; [apply base_classes_rule|intros _ ?].
  rewrite run_rules_cons. apply bind_ext; [apply undocumented_classes_rule|intros _ ?].
  rewrite run_rules_cons. apply bind_ext; [apply inherited_classes_rule|intros _ ?].
  rewrite run_rules_cons. apply bind_ext; [apply truncated_classes_rule|intros _ ?].
  rewrite run_rules_cons. apply bind_ext; [apply text_near_arrows_rule|intros _ ?].
  rewrite run_rules_cons. apply bind_ext; [apply text_in_classes_rule|intros _ ?].
  rewrite run_rules_app. apply bind_ext; [apply arrows_rules|intros _ ?].
  rewrite run_rules_cons. apply bind_ext; [apply style_sheets_rule|intros _ ?].
  rewrite run_rules_cons. apply bind_ext; [apply navigator_rule|intros _ ?].
  rewrite run_rules_cons. apply bind_ext; [apply buttons_rule|intros _ ?].
  rewrite run_rules_cons. unfold run_rules. simpl for_each. rewrite bind_ret_tt.
  apply arrow_out_rule.
Qed.

(** ** What a rule can do to the tree *)

(** The value of a right-hand side under the palette [g]. *)
Definition value_in (g : gmap string string) (v : value) : option string :=
  match v with
  | Lit s => Some s
  | Pal role => g !! role
  | Fmt before role => (λ c, before +:+ c) <$> g !! role
  end.

Lemma eval_value_in v st :
  eval v st = match value_in (globals_rose_pine st) v with
              | Some s => Ok s st
              | None => Raise KeyError
              end.
Proof.
  destruct v as [s|role|before role]; simpl; unfold_script; simpl; [done| |].
  - by destruct (_ !! role).
  - by destruct (_ !! role).
Qed.

Definition values_in (g : gmap string string) (ws : list (string * value))
    : option (list (string * string)) :=
  mapM (λ kv, (kv.1,.) <$> value_in g kv.2) ws.

(** The assignments [kvs] at the tag [p], one after the other. *)
Definition set_attrs (kvs : list (string * string)) : node → node :=
  on_attrs (λ a, foldl (λ a kv, <[kv.1 := kv.2]> a) a kvs).

Lemma for_each_cons {A} (x : A) xs (f : A → M unit) st :
  for_each (x :: xs) f st
  = match f x st with
    | Ok _ st' => for_each xs f st'
    | Raise e => Raise e
    end.
Proof. done. Qed.

Lemma assign_Some p kv st :
  assign (Some p) kv st
  = match value_in (globals_rose_pine st) kv.2 with
    | Some v =>
        Ok tt (State (globals_rose_pine st) (update p (set_attr kv.1 v) (soup st)))
    | None => Raise KeyError
    end.
Proof.
  unfold assign, mbind, M_bind. rewrite eval_value_in.
  by destruct (value_in _ _).
Qed.

Lemma for_each_assign_Some p ws st :
  for_each ws (assign (Some p)) st
  = match values_in (globals_rose_pine st) ws with
    | Some kvs => Ok tt (State (globals_rose_pine st) (update p (set_attrs kvs) (soup st)))
    | None => Raise KeyError
    end.
Proof.
  destruct st as [g d]. simpl. revert d. induction ws as [|[k v] ws IH]; intros d.
  - simpl. unfold mret, M_ret. f_equal. f_equal. symmetry.
    destruct (subtree p d) as [n|] eqn:E.
    + eapply update_id; [done|]. by destruct n.
    + by apply update_invalid.
  - rewrite for_each_cons, assign_Some. simpl.
    unfold values_in. simpl. destruct (value_in g v) as [s|]; simpl; [|done].
    rewrite IH. unfold values_in. destruct (mapM _ ws) as [kvs|]; simpl; [|done].
    f_equal. f_equal. rewrite set_attr_on_attrs, update_compose.
    apply update_ext. by intros [].
Qed.

Lemma for_each_assign_None ws st :
  for_each ws (assign None) st
  = match ws with
    | [] => Ok tt st
    | kv :: _ =>
        match value_in (globals_rose_pine st) kv.2 with
        | Some _ => Raise TypeError
        | None => Raise KeyError
        end
    end.
Proof.
  destruct ws as [|[k v] ws]; [done|]. simpl. unfold assign, mbind, M_bind.
  rewrite eval_value_in. simpl. by destruct (value_in _ v).
Qed.

Lemma append_empty_r (s : string) : s +:+ "" = s.
Proof.
  induction s as [|c s IH]; [done|].
  change (String c (s +:+ "") = String c s). by rewrite IH.
Qed.

Lemma dot_string_Some n q :
  dot_string n = Some q →
  q ≠ [] ∧ subtree q n = Some (NavigableString (dot_text n)).
Proof.
  revert q. induction n as [nm a cs IH|t] using node_induction; intros q; [|done].
  destruct cs as [|c [|c' cs]]; [done| |done]. simpl.
  apply Forall_cons in IH as [IH _].
  destruct c as [nm' a' cs'|t].
  - destruct (dot_string (Tag nm' a' cs')) as [q'|] eqn:E; [|done]. simpl.
    intros [= <-]. split; [done|]. destruct (IH _ eq_refl) as [_ H]. simpl in *.
    rewrite H. f_equal. f_equal. by rewrite append_empty_r.
  - intros [= <-]. split; [done|]. simpl. by rewrite append_empty_r.
Qed.

Lemma for_each_inv {A} (I : state → Prop) (xs : list A) (body : A → M unit) st st' :
  (∀ x s s', x ∈ xs → I s → body x s = Ok tt s' → I s') →
  I st → for_each xs body st = Ok tt st' → I st'.
Proof.
  revert st. induction xs as [|x xs IH]; intros st Hb HI; simpl.
  - by intros [= <-].
  - unfold mbind, M_bind. destruct (body x st) as [[] s1|] eqn:E; [|done].
    apply IH; [|eapply Hb; [|done..]].
    + intros y s s' Hy. apply Hb. by apply elem_of_cons; right.
    + apply elem_of_cons; by left.
Qed.

Definition write_lists (r : rule) : list (list (string * value)) :=
  match r with
  | Assign _ _ _ own nested => own :: (snd <$> nested)
  | Retext _ _ => []
  end.

(** One mutation of the tree by the rule [r] under the palette [g]: the
    assignments of one of its lists at some node, or a new text for a string
    below a tag that its style sheet selector matches. *)
Inductive step (g : gmap string string) (r : rule) : node → node → Prop :=
| step_set p ws kvs d :
    ws ∈ write_lists r → values_in g ws = Some kvs →
    step g r d (update p (set_attrs kvs) d)
| step_text sel subst e q t d s :
    r = Retext sel subst → matches_at sel e d = true → q ≠ [] →
    subtree (e ++ q) d = Some (NavigableString s) →
    step g r d (update (e ++ q) (λ _, NavigableString t) d).

Lemma run_nested_steps g r e n st st' :
  n.2 ∈ write_lists r → globals_rose_pine st = g →
  run_nested e n st = Ok tt st' →
  globals_rose_pine st' = g ∧ rtc (step g r) (soup st) (soup st').
Proof.
  intros Hn Hg. unfold run_nested, find, mbind, M_bind.
  destruct (head _) as [c|].
  - rewrite for_each_assign_Some, Hg.
    destruct (values_in g n.2) as [kvs|] eqn:E; [|done]. intros [= <-]. simpl.
    split; [done|]. apply rtc_once. by eapply step_set.
  - rewrite for_each_assign_None. destruct n.2 as [|kv ws].
    + by intros [= <-].
    + by destruct (value_in _ _).
Qed.

Lemma run_body_steps g first sel unless own nested e st st' :
  globals_rose_pine st = g →
  run_body unless own nested e st = Ok tt st' →
  globals_rose_pine st' = g
  ∧ rtc (step g (Assign first sel unless own nested)) (soup st) (soup st').
Proof.
  intros Hg. unfold run_body. unfold mbind at 1. unfold M_bind.
  assert (∃ b, match unless with Some key => has_attr e key | None => mret false end st
               = Ok b st) as [b ->] by (destruct unless; by eexists).
  destruct b; [by intros [= <-]|].
  unfold mbind, M_bind. rewrite for_each_assign_Some, Hg.
  destruct (values_in g own) as [kvs|] eqn:E; [|done].
  intros H. eapply (for_each_inv (λ s, globals_rose_pine s = g ∧
    rtc (step g (Assign first sel unless own nested)) (soup st) (soup s))) in H; [done| |].
  - intros n s s' Hn [Hs Hrtc] Hrun.
    eapply run_nested_steps in Hrun as [? ?]; [|simpl|done].
    + split; [done|]. by etrans.
    + apply elem_of_cons. right. apply list_elem_of_fmap. eauto.
  - simpl. split; [done|]. apply rtc_once. eapply step_set; [|done].
    apply elem_of_cons. by left.
Qed.

Lemma run_retext_steps g sel subst e st st' :
  globals_rose_pine st = g → matches_at sel e (soup st) = true →
  run_retext subst e st = Ok tt st' →
  globals_rose_pine st' = g
  ∧ step g (Retext sel subst) (soup st) (soup st').
Proof.
  intros Hg Hm. unfold run_retext, string_of, getattr_replace_with, text_of,
    replace_with, mbind, M_bind.
  destruct (subtree e (soup st)) as [n|] eqn:E; simpl; [|done].
  destruct (dot_string n) as [q|] eqn:Eq; simpl; [|done].
  destruct (evals subst st) as [kvs st1|] eqn:Ee; [|done].
  assert (st1 = st) as ->.
  { clear -Ee. revert kvs Ee. induction subst as [|[old v] subst IH]; intros kvs; simpl.
    - by intros [= _ <-].
    - unfold mbind, M_bind. rewrite eval_value_in.
      destruct (value_in _ v); [|done].
      destruct (evals subst st) as [rest st2|]; [|done].
      intros [= _ <-]. by eapply IH. }
  intros [= <-]. simpl. split; [done|].
  apply dot_string_Some in Eq as [Hq Hs].
  eapply step_text; [done..|]. by rewrite subtree_app, E.
Qed.

Lemma steps_label_text g sel subst d d' :
  rtc (step g (Retext sel subst)) d d' → ∀ q, label q d' = label q d.
Proof.
  induction 1 as [|d1 d2 d3 Hs _ IH]; [done|]. intros q. rewrite IH.
  inversion Hs as [? ? ? ? Hin|? ? ? ? ? ? s ? ? ? Hsub]; subst.
  - by apply elem_of_nil in Hin.
  - by eapply label_update_string.
Qed.

Lemma run_rule_steps r st st' :
  run_rule r st = Ok tt st' →
  globals_rose_pine st' = globals_rose_pine st
  ∧ rtc (step (globals_rose_pine st) r) (soup st) (soup st').
Proof.
  set (g := globals_rose_pine st).
  destruct r as [[] sel unless own nested|sel subst]; simpl;
    unfold find, find_all, mbind, M_bind.
  - destruct (head _) as [e|]; [|by intros [= <-]].
    by apply run_body_steps.
  - intros H. eapply (for_each_inv (λ s, globals_rose_pine s = g ∧
      rtc (step g (Assign false sel unless own nested)) (soup st) (soup s))) in H; [done| |done].
    intros e s s' _ [Hs Hrtc] Hrun.
    eapply run_body_steps in Hrun as [? ?]; [|done]. split; [done|]. by etrans.
  - intros H. eapply (for_each_inv (λ s, globals_rose_pine s = g ∧
      rtc (step g (Retext sel subst)) (soup st) (soup s))) in H; [done| |done].
    intros e s s' He [Hs Hrtc] Hrun.
    eapply run_retext_steps in Hrun as [? ?]; [| done |].
    + split; [done|]. eapply rtc_r; done.
    + apply elem_of_find_all_root in He as [_ He].
      unfold matches_at in *. by erewrite steps_label_text.
Qed.

(** A mutation by one of the rules [rs]. *)
Definition any_step (g : gmap string string) (rs : list rule) (d d' : node) : Prop :=
  ∃ r, r ∈ rs ∧ step g r d d'.

Lemma run_rules_steps rs st st' :
  run_rules rs st = Ok tt st' →
  globals_rose_pine st' = globals_rose_pine st
  ∧ rtc (any_step (globals_rose_pine st) rs) (soup st) (soup st').
Proof.
  set (g := globals_rose_pine st). intros H.
  eapply (for_each_inv (λ s, globals_rose_pine s = g ∧
    rtc (any_step g rs) (soup st) (soup s))) in H; [done| |done].
  intros r s s' Hr [Hs Hrtc] Hrun. apply run_rule_steps in Hrun as [Hg Hsteps].
  split; [congruence|]. etrans; [done|]. rewrite Hs in Hsteps.
  eapply rtc_subrel; [|done]. intros d d' Hd. by exists r.
Qed.

Lemma recolor_steps st st' :
  recolor st = Ok tt st' →
  globals_rose_pine st' = globals_rose_pine st
  ∧ rtc (any_step (globals_rose_pine st) catalogue) (soup st) (soup st').
Proof. rewrite recolor_catalogue. apply run_rules_steps. Qed.

(** ** The palette (claim C4) *)

Definition is_hex_digit (c : Ascii.ascii) : bool :=
  bool_decide (c ∈ String.list_ascii_of_string "0123456789abcdef").

(** [#rrggbb] *)
Definition is_hex_colour (s : string) : bool :=
  match s with
  | String c digits =>
      bool_decide (String c "" = "#")
      && bool_decide (String.length digits = 6)
      && forallb is_hex_digit (String.list_ascii_of_string digits)
  | _ => false
  end.

Definition world_of (o : outcome) : world :=
  match o with
  | Done w | Failed _ w => w
  end.

Lemma rose_pine_ify_module_rose_pine lib svg_file_path w :
  module_rose_pine (world_of (rose_pine_ify lib svg_file_path w)) = module_rose_pine w.
Proof.
  unfold rose_pine_ify. destruct (files w !! _) as [text|]; [|done].
  destruct (parse lib text) as [d|]; [|done].
  destruct (recolor _) as [[] st|] eqn:E; [|done].
  apply recolor_steps in E as [E _]. done.
Qed.

Lemma main_loop_module_rose_pine lib svg_file_paths w :
  module_rose_pine (world_of (main_loop lib svg_file_paths w)) = module_rose_pine w.
Proof.
  revert w. induction svg_file_paths as [|p ps IH]; intros w; simpl; [done|].
  pose proof (rose_pine_ify_module_rose_pine lib p w) as H.
  destruct (rose_pine_ify lib p w) as [w'|e w']; simpl in *; [|done].
  by rewrite IH.
Qed.

(** C4, as the specification states it, fails: the palette does not have
    exactly 14 roles. *)
Lemma palette_not_14_roles : size rose_pine ≠ 14.
Proof. vm_compute. lia. Qed.

(** C4, amended: the palette is a fixed mapping from exactly 15 named roles
    to hexadecimal RGB colour strings, among them "base", "gold", "iris",
    "love", "pine", "text", "overlay", "subtle" and "muted"; and no
    operation of the program mutates it: the dictionary is the same after
    the rules have run on a tree, after [rose_pine_ify] on a file and after
    the whole loop over the files, whether they complete or raise. *)
Theorem palette_fixed :
  size rose_pine = 15
  ∧ Forall (λ role, is_Some (rose_pine !! role))
      ["base"; "gold"; "iris"; "love"; "pine"; "text"; "overlay"; "subtle"; "muted"]
  ∧ map_Forall (λ _ colour, is_hex_colour colour = true) rose_pine
  ∧ (∀ st, match recolor st with
           | Ok _ st' => globals_rose_pine st' = globals_rose_pine st
           | Raise _ => True
           end)
  ∧ (∀ lib svg_file_paths w,
       module_rose_pine (world_of (main_loop lib svg_file_paths w))
       = module_rose_pine w).
Proof.
  split; [by vm_compute|]. split.
  { repeat constructor; by vm_compute; eexists. }
  split.
  { unfold rose_pine. apply map_Forall_to_list. rewrite map_to_list_to_map.
    - repeat constructor.
    - vm_compute. repeat constructor; set_solver. }
  split; [|apply main_loop_module_rose_pine].
  intros st. destruct (recolor st) as [[] st'|] eqn:E; [|done].
  by apply recolor_steps in E as [E _].
Qed.

(** ** Written values and match keys (claim C5) *)

Definition rule_selectors (r : rule) : list selector :=
  match r with
  | Assign _ sel _ _ nested => sel :: (fst <$> nested)
  | Retext sel _ => [sel]
  end.

(** The attribute values a rule looks for. *)
Definition match_keys (r : rule) : list string :=
  sel ← rule_selectors r; snd <$> sel_attrs sel.

(** The attribute values a rule assigns, under the palette [g]. *)
Definition written_values (g : gmap string string) (r : rule) : list string :=
  ws ← write_lists r; omap (λ kv, value_in g kv.2) ws.

Definition catalogue_disjoint : Prop :=
  Forall (λ r, Forall (λ r',
    Forall (λ v, v ∉ match_keys r') (written_values rose_pine r)) catalogue) catalogue.

Lemma values_in_written g r ws kvs kv :
  ws ∈ write_lists r → values_in g ws = Some kvs → kv ∈ kvs →
  kv.2 ∈ written_values g r.
Proof.
  intros Hws Hv Hkv. unfold written_values. apply list_elem_of_bind.
  exists ws. split; [|done]. clear Hws. revert kvs Hv Hkv.
  induction ws as [|[k v] ws IH]; intros kvs; unfold values_in; simpl.
  - intros [= <-] H. by apply elem_of_nil in H.
  - destruct (value_in g v) as [s|]; simpl; [|done].
    destruct (mapM _ ws) as [kvs'|] eqn:E; simpl; [|done].
    intros [= <-] [->|H]%elem_of_cons.
    + apply elem_of_cons. by left.
    + apply elem_of_cons. right. by eapply IH.
Qed.

Lemma matches_label_insert sel name a k v :
  v ∉ (snd <$> sel_attrs sel) →
  matches_label sel name (<[k := v]> a) = true → matches_label sel name a = true.
Proof.
  intros Hv. unfold matches_label. rewrite !andb_true_iff, !forallb_forall.
  intros [Hn Ha]. split; [done|]. intros [k' v'] Hin. specialize (Ha _ Hin).
  simpl in *. apply bool_decide_eq_true in Ha. apply bool_decide_eq_true.
  destruct (decide (k = k')) as [->|Hne].
  - rewrite lookup_insert_eq in Ha. injection Ha as ->. destruct Hv.
    apply list_elem_of_fmap. exists (k', v'). split; [done|]. by apply list_elem_of_In.
  - by rewrite lookup_insert_ne in Ha.
Qed.

Lemma matches_label_inserts sel name a kvs :
  Forall (λ kv, kv.2 ∉ (snd <$> sel_attrs sel)) kvs →
  matches_label sel name (foldl (λ a kv, <[kv.1 := kv.2]> a) a kvs) = true →
  matches_label sel name a = true.
Proof.
  intros H. revert a. induction H as [|[k v] kvs Hv _ IH]; intros a; simpl; [done|].
  intros Hm. apply IH in Hm. by eapply matches_label_insert.
Qed.

(** A mutation by [r] makes no tag match [sel] that did not match before,
    when no value that [r] assigns is a match key of [sel]. *)
Lemma step_no_new_match g r sel d d' p :
  Forall (λ v, v ∉ (snd <$> sel_attrs sel)) (written_values g r) →
  step g r d d' → matches_at sel p d' = true → matches_at sel p d = true.
Proof.
  intros Hsafe Hs. unfold matches_at.
  inversion Hs as [q ws kvs ? Hws Hv|? ? ? ? ? ? s ? ? ? Hsub]; subst.
  - unfold set_attrs. rewrite label_update_attrs. case_decide as E; [|done]. subst q.
    destruct (label p d) as [[nm a]|]; simpl; [|done].
    apply matches_label_inserts. apply Forall_forall. intros kv Hkv.
    rewrite Forall_forall in Hsafe. apply Hsafe. by eapply values_in_written.
  - by erewrite label_update_string.
Qed.

Lemma elem_of_match_keys r sel v :
  sel ∈ rule_selectors r → v ∈ (snd <$> sel_attrs sel) → v ∈ match_keys r.
Proof. intros. apply list_elem_of_bind. eauto. Qed.

Lemma catalogue_disjoint_holds : catalogue_disjoint.
Proof.
  unfold catalogue_disjoint.
  apply Forall_forall. intros r Hr. apply Forall_forall. intros r' Hr'.
  apply Forall_forall. intros v Hv.
  assert (bool_decide (Forall (λ r, Forall (λ r',
    Forall (λ v, v ∉ match_keys r') (written_values rose_pine r)) catalogue) catalogue)
    = true) as H by by vm_compute.
  apply bool_decide_eq_true in H.
  rewrite Forall_forall in H. specialize (H _ Hr).
  rewrite Forall_forall in H. specialize (H _ Hr').
  rewrite Forall_forall in H. by apply H.
Qed.

Lemma steps_no_new_match g r sel d d' p :
  Forall (λ v, v ∉ (snd <$> sel_attrs sel)) (written_values g r) →
  rtc (step g r) d d' → matches_at sel p d' = true → matches_at sel p d = true.
Proof.
  intros Hsafe. induction 1 as [|d1 d2 d3 Hs _ IH]; [done|].
  intros H. eapply step_no_new_match; eauto.
Qed.

Lemma catalogue_safe r r' sel :
  r ∈ catalogue → r' ∈ catalogue → sel ∈ rule_selectors r' →
  Forall (λ v, v ∉ (snd <$> sel_attrs sel)) (written_values rose_pine r).
Proof.
  intros Hr Hr' Hsel. pose proof catalogue_disjoint_holds as H.
  unfold catalogue_disjoint in H.
  rewrite Forall_forall in H. specialize (H _ Hr).
  rewrite Forall_forall in H. specialize (H _ Hr').
  eapply Forall_impl; [done|]. intros v Hv Hin. apply Hv.
  by eapply elem_of_match_keys.
Qed.

(** C5: no attribute value that a rule of the catalogue assigns (under the
    palette of the script) is a match key of any rule of the catalogue; and
    so a run of any rule makes no tag match a selector of any rule, its own
    or a nested one, that the tag did not match before the run. *)
Theorem written_values_are_no_match_keys :
  catalogue_disjoint
  ∧ ∀ r r' sel st st' p,
      r ∈ catalogue → r' ∈ catalogue → sel ∈ rule_selectors r' →
      globals_rose_pine st = rose_pine →
      run_rule r st = Ok tt st' →
      matches_at sel p (soup st') = true → matches_at sel p (soup st) = true.
Proof.
  split; [apply catalogue_disjoint_holds|].
  intros r r' sel st st' p Hr Hr' Hsel Hg Hrun.
  apply run_rule_steps in Hrun as [_ Hsteps]. rewrite Hg in Hsteps.
  eapply steps_no_new_match; [|done]. by eapply catalogue_safe.
Qed.

Definition sample_polygons : node :=
  Tag "[document]" ∅ [Tag "svg" ∅ [
    Tag "polygon" (list_to_map [("fill", "white"); ("stroke", "transparent")]) [];
    Tag "polygon" (list_to_map [("fill", "white"); ("stroke", "#666666")]) []]].

Lemma written_values_are_no_match_keys_witness :
  matches_at (Sel (Some "polygon") [("fill", "white"); ("stroke", "transparent")])
    [0; 0] sample_polygons = true.
Proof.
  eapply (proj2 written_values_are_no_match_keys rule_base_classes rule_background
            _ (State rose_pine sample_polygons) _ [0; 0]).
  - unfold catalogue. set_solver.
  - unfold catalogue. set_solver.
  - simpl. set_solver.
  - reflexivity.
  - vm_compute. reflexivity.
  - vm_compute. reflexivity.
Defined.

(** ** Selectors that match nothing *)

Lemma find_all_root_nil sel d :
  find_all_at [] sel d = [] ↔ ∀ p, p ≠ [] → matches_at sel p d = false.
Proof.
  split.
  - intros H p Hp. destruct (matches_at sel p d) eqn:E; [|done].
    assert (p ∈ find_all_at [] sel d) as Hin by by apply elem_of_find_all_root.
    rewrite H in Hin. by apply elem_of_nil in Hin.
  - intros H. apply elem_of_nil_inv. intros p [Hp Hm]%elem_of_find_all_root.
    by rewrite H in Hm.
Qed.

Lemma any_steps_no_new_match rs sel d d' p :
  (∀ r, r ∈ rs → Forall (λ v, v ∉ (snd <$> sel_attrs sel)) (written_values rose_pine r)) →
  rtc (any_step rose_pine rs) d d' →
  matches_at sel p d' = true → matches_at sel p d = true.
Proof.
  intros Hsafe. induction 1 as [|d1 d2 d3 (r & Hr & Hs) _ IH]; [done|].
  intros H. eapply step_no_new_match; eauto.
Qed.

Lemma any_steps_no_match rs sel d d' :
  (∀ r, r ∈ rs → Forall (λ v, v ∉ (snd <$> sel_attrs sel)) (written_values rose_pine r)) →
  rtc (any_step rose_pine rs) d d' →
  find_all_at [] sel d = [] → find_all_at [] sel d' = [].
Proof.
  intros Hsafe Hsteps. rewrite !find_all_root_nil. intros H p Hp.
  destruct (matches_at sel p d') eqn:E; [|done].
  eapply any_steps_no_new_match in E; [|done..]. by rewrite H in E.
Qed.

Lemma any_step_subseteq g rs rs' d d' :
  rs ⊆ rs' → rtc (any_step g rs) d d' → rtc (any_step g rs') d d'.
Proof.
  intros Hsub. apply rtc_subrel. intros d1 d2 (r & Hr & Hs). exists r. split; [|done].
  by apply Hsub.
Qed.

(** ** The optional group [arrow_out] (claim C8) *)

Definition sel_arrow_out : selector := Sel (Some "g") [("id", "arrow_out")].

(** The rules before the last one. *)
Definition rules_before_arrow_out : list rule :=
  [rule_background; rule_base_classes; rule_undocumented_classes;
   rule_inherited_classes; rule_truncated_classes; rule_text_near_arrows;
   rule_text_in_classes]
  ++ rules_arrows
  ++ [rule_style_sheets; rule_navigator; rule_buttons].

Lemma catalogue_before_arrow_out :
  catalogue = (rules_before_arrow_out ++ [rule_arrow_out])%list.
Proof. reflexivity. Qed.

Definition sample_navigator_without_rect : node :=
  Tag "[document]" ∅ [Tag "svg" ∅ [Tag "g" {["id" := "navigator"]} []]].

(** C8, as the specification states it, fails: a document without a group
    [arrow_out] can still make the transformation raise. *)
Lemma no_arrow_out_not_enough :
  ¬ (∀ d, find_all_at [] sel_arrow_out d = [] →
          ∃ st', recolor (State rose_pine d) = Ok tt st').
Proof.
  intros H. destruct (H sample_navigator_without_rect) as [st' Hst'].
  - reflexivity.
  - vm_compute in Hst'. discriminate.
Qed.

(** C8, amended: on a document without a group [arrow_out] the last rule
    does nothing and raises nothing: the transformation ends as the rules
    before it end, with the same tree or with the same exception.  The
    absent group is never the reason of a failure. *)
Theorem absent_arrow_out_is_tolerated d :
  find_all_at [] sel_arrow_out d = [] →
  recolor (State rose_pine d) = run_rules rules_before_arrow_out (State rose_pine d).
Proof.
  intros Hno. rewrite recolor_catalogue, catalogue_before_arrow_out, run_rules_app.
  unfold mbind, M_bind.
  destruct (run_rules rules_before_arrow_out _) as [[] st1|] eqn:E; [|done].
  apply run_rules_steps in E as [Hg Hsteps]. simpl in *.
  assert (find_all_at [] sel_arrow_out (soup st1) = []) as Hnil.
  { eapply (any_steps_no_match rules_before_arrow_out); [|done..].
    intros r Hr. eapply (catalogue_safe r rule_arrow_out).
    - rewrite catalogue_before_arrow_out. apply elem_of_app. by left.
    - rewrite catalogue_before_arrow_out. apply elem_of_app. right. set_solver.
    - simpl. set_solver. }
  unfold run_rules. simpl. rewrite bind_ret_tt.
  unfold_script. simpl. unfold sel_arrow_out in Hnil. rewrite Hnil. by destruct st1.
Qed.

Definition sample_css : node :=
  Tag "[document]" ∅ [Tag "svg" ∅ [
    Tag "style" {["type" := "text/css"]}
      [NavigableString "a { stroke: red; fill: red; }"];
    Tag "text" ∅ [NavigableString "Node"]]].

Lemma absent_arrow_out_is_tolerated_witness :
  recolor (State rose_pine sample_css)
  = run_rules rules_before_arrow_out (State rose_pine sample_css).
Proof. apply absent_arrow_out_is_tolerated. reflexivity. Defined.

(** ** Missing nested tags (claim C3) *)

Lemma find_all_at_nil e sel d :
  find_all_at e sel d = [] ↔ ∀ r, r ≠ [] → matches_at sel (e ++ r) d = false.
Proof.
  split.
  - intros H r Hr. destruct (matches_at sel (e ++ r) d) eqn:E; [|done].
    assert ((e ++ r)%list ∈ find_all_at e sel d) as Hin
      by (apply elem_of_find_all_at; eauto).
    rewrite H in Hin. by apply elem_of_nil in Hin.
  - intros H. apply elem_of_nil_inv. intros p (r & -> & Hr & Hm)%elem_of_find_all_at.
    by rewrite H in Hm.
Qed.

Lemma any_steps_no_match_at rs e sel d d' :
  (∀ r, r ∈ rs → Forall (λ v, v ∉ (snd <$> sel_attrs sel)) (written_values rose_pine r)) →
  rtc (any_step rose_pine rs) d d' →
  find_all_at e sel d = [] → find_all_at e sel d' = [].
Proof.
  intros Hsafe Hsteps. rewrite !find_all_at_nil. intros H r Hr.
  destruct (matches_at sel (e ++ r) d') eqn:E; [|done].
  eapply any_steps_no_new_match in E; [|done..]. by rewrite H in E.
Qed.

(** A mutation by [r] keeps the tags that [sel] matches, when [r] assigns
    none of the attributes that [sel] looks at. *)
Definition written_keys (r : rule) : list string :=
  ws ← write_lists r; fst <$> ws.

Lemma values_in_keys g ws kvs : values_in g ws = Some kvs → fst <$> kvs = fst <$> ws.
Proof.
  revert kvs. induction ws as [|[k v] ws IH]; intros kvs; unfold values_in; simpl.
  - by intros [= <-].
  - destruct (value_in g v) as [s|]; simpl; [|done].
    destruct (mapM _ ws) as [kvs'|] eqn:E; simpl; [|done].
    intros [= <-]. simpl. f_equal. by apply IH.
Qed.

Lemma lookup_inserts_ne (a : gmap string string) kvs k :
  k ∉ (fst <$> kvs) → foldl (λ a kv, <[kv.1 := kv.2]> a) a kvs !! k = a !! k.
Proof.
  revert a. induction kvs as [|[k' v] kvs IH]; intros a; simpl; [done|].
  intros [Hne Hk]%not_elem_of_cons. rewrite IH by done. by rewrite lookup_insert_ne.
Qed.

Lemma matches_label_ext sel name (a a' : gmap string string) :
  (∀ k, k ∈ (fst <$> sel_attrs sel) → a' !! k = a !! k) →
  matches_label sel name a' = matches_label sel name a.
Proof.
  unfold matches_label. intros H. f_equal.
  induction (sel_attrs sel) as [|[k v] l IH]; simpl; [done|].
  rewrite H by (simpl; apply elem_of_cons; by left). f_equal.
  apply IH. intros k' Hk'. apply H. simpl. apply elem_of_cons. by right.
Qed.

Lemma step_keeps_match g r sel d d' p :
  Forall (λ k, k ∉ (fst <$> sel_attrs sel)) (written_keys r) →
  step g r d d' → matches_at sel p d' = matches_at sel p d.
Proof.
  intros Hsafe Hs. unfold matches_at.
  inversion Hs as [q ws kvs ? Hws Hv|? ? ? ? ? ? s ? ? ? Hsub]; subst.
  - unfold set_attrs. rewrite label_update_attrs. case_decide as E; [|done]. subst q.
    destruct (label p d) as [[nm a]|]; simpl; [|done].
    apply matches_label_ext. intros k Hk. apply lookup_inserts_ne.
    rewrite (values_in_keys _ _ _ Hv). intros Hin.
    rewrite Forall_forall in Hsafe. eapply Hsafe; [|done].
    apply list_elem_of_bind. eauto.
  - by erewrite label_update_string.
Qed.

Lemma any_steps_keep_match g rs sel d d' p :
  (∀ r, r ∈ rs → Forall (λ k, k ∉ (fst <$> sel_attrs sel)) (written_keys r)) →
  rtc (any_step g rs) d d' → matches_at sel p d' = matches_at sel p d.
Proof.
  intros Hsafe. induction 1 as [|d1 d2 d3 (r & Hr & Hs) _ IH]; [done|].
  rewrite IH. eapply step_keeps_match; eauto.
Qed.

Lemma for_each_raises {A} (I : state → Prop) (xs : list A) (body : A → M unit) x st :
  x ∈ xs → I st →
  (∀ y s s', I s → body y s = Ok tt s' → I s') →
  (∀ s, I s → ∃ e, body x s = Raise e) →
  ∃ e, for_each xs body st = Raise e.
Proof.
  intros Hx HI Hpres Hraise. revert st HI.
  induction xs as [|y xs IH]; intros st HI; [by apply elem_of_nil in Hx|].
  rewrite for_each_cons. destruct (body y st) as [[] s'|e] eqn:E; [|by eexists].
  apply elem_of_cons in Hx as [->|Hx].
  - destruct (Hraise _ HI) as [e He]. congruence.
  - apply IH; [done|]. by eapply Hpres.
Qed.

Lemma bind_unfold {A B} (m : M A) (k : A → M B) st :
  (m ≫= k) st = match m st with
                | Ok a st' => k a st'
                | Raise e => Raise e
                end.
Proof. done. Qed.

Lemma run_nested_unfold e n st :
  run_nested e n st = for_each n.2 (assign (head (find_all_at e n.1 (soup st)))) st.
Proof. done. Qed.

Lemma steps_any_step g r d d' : rtc (step g r) d d' → rtc (any_step g [r]) d d'.
Proof.
  apply rtc_subrel. intros d1 d2 Hs. exists r. split; [|done]. apply elem_of_cons. by left.
Qed.

(** A rule whose first nested tag is missing below a selected tag raises. *)
Lemma missing_nested_raises sel own sel' ws rest st p :
  let r := Assign false sel None own ((sel', ws) :: rest) in
  Forall (λ v, v ∉ (snd <$> sel_attrs sel')) (written_values rose_pine r) →
  globals_rose_pine st = rose_pine →
  p ∈ find_all_at [] sel (soup st) →
  find_all_at p sel' (soup st) = [] →
  ws ≠ [] →
  ∃ e, run_rule r st = Raise e.
Proof.
  intros r Hsafe Hg Hp Hnil Hws. simpl. unfold find_all, mbind, M_bind.
  assert (∀ s s', globals_rose_pine s = rose_pine →
            find_all_at p sel' (soup s) = [] →
            rtc (step rose_pine r) (soup s) (soup s') →
            find_all_at p sel' (soup s') = []) as Hkeep.
  { intros s s' Hs Hn Hsteps. eapply (any_steps_no_match_at [r]); [| |done].
    - intros r' ->%list_elem_of_singleton. done.
    - by apply steps_any_step. }
  eapply (for_each_raises
    (λ s, globals_rose_pine s = rose_pine ∧ find_all_at p sel' (soup s) = [])); [done..| |].
  - intros y s s' [Hs Hn] Hrun.
    destruct (run_body_steps rose_pine false sel _ _ _ _ _ _ Hs Hrun) as [? ?].
    split; [done|]. by apply (Hkeep s s').
  - intros s [Hs Hn]. unfold run_body, mbind, M_bind. simpl.
    rewrite for_each_assign_Some.
    destruct (values_in _ own) as [kvs|] eqn:E; [|by eexists].
    assert (find_all_at p sel' (update p (set_attrs kvs) (soup s)) = []) as Hn'.
    { apply (Hkeep s (State (globals_rose_pine s) (update p (set_attrs kvs) (soup s))));
        [done..|].
      simpl. apply rtc_once. eapply step_set; [|by rewrite <- Hs].
      apply elem_of_cons. by left. }
    rewrite bind_unfold, run_nested_unfold. simpl. rewrite Hn'. simpl.
    rewrite for_each_assign_None. destruct ws as [|kv ws']; [done|].
    simpl. destruct (value_in _ _); by eexists.
Qed.

Lemma recolor_raises_in before r after d :
  catalogue = (before ++ r :: after)%list →
  (∀ st1, globals_rose_pine st1 = rose_pine →
          rtc (any_step rose_pine before) d (soup st1) →
          ∃ e, run_rule r st1 = Raise e) →
  ∃ e, recolor (State rose_pine d) = Raise e.
Proof.
  intros Hcat Hr. rewrite recolor_catalogue, Hcat, run_rules_app.
  unfold mbind, M_bind.
  destruct (run_rules before _) as [[] st1|e] eqn:E; [|by eexists].
  apply run_rules_steps in E as [Hg Hsteps]. simpl in *.
  rewrite run_rules_cons. unfold mbind, M_bind.
  destruct (Hr st1 Hg Hsteps) as [e ->]. by eexists.
Qed.

(** When the rules raise, the file keeps its content and the loop over
    the files stops. *)
Lemma raise_aborts lib svg_file_path rest w text d e :
  files w !! svg_file_path = Some text →
  parse lib text = Some d →
  recolor (State (module_rose_pine w) d) = Raise e →
  rose_pine_ify lib svg_file_path w = Failed e w
  ∧ main_loop lib (svg_file_path :: rest) w = Failed e w.
Proof.
  intros Hf Hp Hr.
  assert (rose_pine_ify lib svg_file_path w = Failed e w) as H.
  { unfold rose_pine_ify. by rewrite Hf, Hp, Hr. }
  split; [done|]. simpl. by rewrite H.
Qed.

Definition sel_navigator : selector := Sel (Some "g") [("id", "navigator")].
Definition sel_navigator_rect : selector := Sel (Some "rect") [("fill", "#f2f5e9")].

Definition rules_before_navigator : list rule :=
  [rule_background; rule_base_classes; rule_undocumented_classes;
   rule_inherited_classes; rule_truncated_classes; rule_text_near_arrows;
   rule_text_in_classes]
  ++ rules_arrows ++ [rule_style_sheets].

Lemma catalogue_navigator :
  catalogue
  = (rules_before_navigator ++ rule_navigator :: [rule_buttons; rule_arrow_out])%list.
Proof. reflexivity. Qed.

Lemma no_rule_writes_id r :
  r ∈ catalogue → Forall (λ k, k ∉ (fst <$> sel_attrs sel_navigator)) (written_keys r).
Proof.
  intros Hr.
  assert (bool_decide (Forall (λ r,
    Forall (λ k, k ∉ (fst <$> sel_attrs sel_navigator)) (written_keys r)) catalogue)
    = true) as H by by vm_compute.
  apply bool_decide_eq_true in H. rewrite Forall_forall in H. by apply H.
Qed.

Lemma navigator_without_rect_raises d p :
  p ≠ [] → matches_at sel_navigator p d = true →
  find_all_at p sel_navigator_rect d = [] →
  ∃ e, recolor (State rose_pine d) = Raise e.
Proof.
  intros Hp Hm Hnil. eapply recolor_raises_in; [apply catalogue_navigator|].
  intros st1 Hg Hsteps.
  assert (rules_before_navigator ⊆ catalogue) as Hsub.
  { rewrite catalogue_navigator. intros r Hr. apply elem_of_app. by left. }
  assert (rule_navigator ∈ catalogue) as Hnav.
  { rewrite catalogue_navigator. apply elem_of_app. right. apply elem_of_cons. by left. }
  apply missing_nested_raises with (p := p); [|done| | |done].
  - apply (catalogue_safe rule_navigator rule_navigator); [done..|]. simpl. set_solver.
  - apply elem_of_find_all_root. split; [done|].
    erewrite any_steps_keep_match; [done| |done].
    intros r Hr. apply no_rule_writes_id. by apply Hsub.
  - eapply any_steps_no_match_at; [|done..].
    intros r Hr. apply (catalogue_safe r rule_navigator); [by apply Hsub|done|].
    simpl. set_solver.
Qed.

(** ** What a rule without nested tags does to each tag *)

Definition inserts (kvs : list (string * string)) (a : gmap string string)
    : gmap string string :=
  foldl (λ a kv, <[kv.1 := kv.2]> a) a kvs.

Lemma set_attrs_inserts kvs : set_attrs kvs = on_attrs (inserts kvs).
Proof. done. Qed.

Lemma inserts_union kvs a : inserts kvs a = list_to_map (reverse kvs) ∪ a.
Proof.
  revert a. induction kvs as [|[k v] kvs IH]; intros a; simpl.
  - by rewrite (left_id_L ∅ (∪)).
  - unfold inserts in *. simpl. rewrite IH, reverse_cons, list_to_map_app. simpl.
    rewrite <- (assoc_L (∪)). f_equal.
    by rewrite insert_empty, <- insert_union_singleton_l.
Qed.

Lemma inserts_idemp kvs a : inserts kvs (inserts kvs a) = inserts kvs a.
Proof. by rewrite !inserts_union, (assoc_L (∪)), (idemp_L (∪)). Qed.

(** The assignments of a rule at a selected tag with the attributes [a]:
    none when the tag has the attribute [unless]. *)
Definition apply_own (unless : option string) (kvs : list (string * string))
    (a : gmap string string) : gmap string string :=
  if match unless with
     | Some key => bool_decide (is_Some (a !! key))
     | None => false
     end
  then a else inserts kvs a.

Lemma apply_own_idemp unless kvs a :
  apply_own unless kvs (apply_own unless kvs a) = apply_own unless kvs a.
Proof.
  unfold apply_own. destruct unless as [key|]; [|apply inserts_idemp].
  destruct (bool_decide (is_Some (a !! key))) eqn:E; [by rewrite E|].
  destruct (bool_decide (is_Some (inserts kvs a !! key))); [done|apply inserts_idemp].
Qed.

Lemma update_ext_at p f g d n :
  subtree p d = Some n → f n = g n → update p f d = update p g d.
Proof.
  revert d. induction p as [|i p IH]; intros d; simpl.
  - by intros [= ->].
  - destruct d as [nm a cs|s]; [|done]. intros H Hfg. f_equal.
    apply list_eq. intros j. destruct (decide (i = j)) as [->|Hne].
    + rewrite !list_lookup_alter_eq. destruct (cs !! j) as [c|]; simpl in *; [|done].
      f_equal. by apply IH.
    + by rewrite !list_lookup_alter_ne.
Qed.

Lemma update_same p f g d :
  (∀ n, subtree p d = Some n → f n = g n) → update p f d = update p g d.
Proof.
  intros H. destruct (subtree p d) as [n|] eqn:E.
  - eapply update_ext_at; eauto.
  - by rewrite !update_invalid.
Qed.

Lemma run_body_simple unless own e st kvs :
  values_in (globals_rose_pine st) own = Some kvs →
  run_body unless own [] e st
  = Ok tt (State (globals_rose_pine st)
             (update e (on_attrs (apply_own unless kvs)) (soup st))).
Proof.
  intros Hv. unfold run_body. rewrite bind_unfold.
  destruct unless as [key|]; simpl.
  - unfold has_attr, label.
    destruct (subtree e (soup st)) as [[nm a cs|t]|] eqn:E.
    + destruct (bool_decide (is_Some (a !! key))) eqn:Ek.
      * unfold mret, M_ret. destruct st as [g d]. simpl in *. f_equal. f_equal.
        symmetry. eapply update_id; [done|]. simpl. unfold apply_own. by rewrite Ek.
      * rewrite bind_ret_tt, for_each_assign_Some, Hv. f_equal. f_equal.
        eapply update_ext_at; [done|]. simpl. unfold apply_own. by rewrite Ek.
    + rewrite bind_ret_tt, for_each_assign_Some, Hv. f_equal. f_equal.
      eapply update_ext_at; [done|]. done.
    + rewrite bind_ret_tt, for_each_assign_Some, Hv. f_equal. f_equal.
      by rewrite !update_invalid.
  - by rewrite bind_ret_tt, for_each_assign_Some, Hv.
Qed.

Lemma for_each_updates (h : gmap string string → gmap string string) es body st :
  (∀ e s, globals_rose_pine s = globals_rose_pine st →
          body e s
          = Ok tt (State (globals_rose_pine s) (update e (on_attrs h) (soup s)))) →
  for_each es body st
  = Ok tt (State (globals_rose_pine st)
             (foldl (λ d e, update e (on_attrs h) d) (soup st) es)).
Proof.
  intros Hb. revert st Hb. induction es as [|e es IH]; intros st Hb.
  - by destruct st.
  - rewrite for_each_cons, Hb by done. rewrite IH; [done|].
    intros e' s Hs. apply Hb. done.
Qed.

Lemma label_foldl_update (h : gmap string string → gmap string string) es d q :
  (∀ a, h (h a) = h a) →
  label q (foldl (λ d e, update e (on_attrs h) d) d es)
  = (λ l, if bool_decide (q ∈ es) then (l.1, h l.2) else l) <$> label q d.
Proof.
  intros Hh. revert d. induction es as [|e es IH]; intros d; simpl.
  - by destruct (label q d) as [[]|].
  - rewrite IH, label_update_attrs. destruct (decide (q = e)) as [->|Hne].
    + rewrite (bool_decide_eq_true_2 (e ∈ e :: es)) by (apply elem_of_cons; by left).
      destruct (label e d) as [[nm a]|]; simpl; [|done].
      by destruct (bool_decide (e ∈ es)); simpl; rewrite ?Hh.
    + destruct (label q d) as [[nm a]|]; simpl; [|done].
      destruct (decide (q ∈ es)) as [Hin|Hnin].
      * rewrite (bool_decide_eq_true_2 (q ∈ es)) by done.
        rewrite (bool_decide_eq_true_2 (q ∈ e :: es)); [done|].
        apply elem_of_cons; by right.
      * rewrite (bool_decide_eq_false_2 (q ∈ es)) by done.
        rewrite (bool_decide_eq_false_2 (q ∈ e :: es)); [done|].
        intros [?|?]%elem_of_cons; done.
Qed.

(** The effect of a rule without nested tags on the tag at [q]. *)
Definition simple_effect (sel : selector) (unless : option string)
    (kvs : list (string * string)) (l : string * gmap string string)
    : string * gmap string string :=
  if matches_label sel l.1 l.2 then (l.1, apply_own unless kvs l.2) else l.

Lemma simple_rule_labels sel unless own st kvs :
  values_in (globals_rose_pine st) own = Some kvs →
  ∃ d', run_rule (Assign false sel unless own []) st
        = Ok tt (State (globals_rose_pine st) d')
      ∧ label [] d' = label [] (soup st)
      ∧ ∀ q, q ≠ [] → label q d' = simple_effect sel unless kvs <$> label q (soup st).
Proof.
  intros Hv. eexists. split; [|split].
  - simpl. unfold find_all. rewrite bind_unfold.
    apply (for_each_updates (apply_own unless kvs)).
    intros e s Hs. apply run_body_simple. by rewrite Hs.
  - rewrite label_foldl_update by apply apply_own_idemp.
    rewrite bool_decide_eq_false_2; [by destruct (label _ _) as [[]|]|].
    by intros [? _]%elem_of_find_all_root.
  - intros q Hq. rewrite label_foldl_update by apply apply_own_idemp.
    unfold simple_effect, matches_at.
    destruct (label q (soup st)) as [[nm a]|] eqn:E; simpl; [|done].
    destruct (matches_label sel nm a) eqn:Em.
    + rewrite bool_decide_eq_true_2; [done|]. apply elem_of_find_all_root.
      split; [done|]. unfold matches_at. by rewrite E.
    + rewrite bool_decide_eq_false_2; [done|]. intros [_ H]%elem_of_find_all_root.
      unfold matches_at in H. rewrite E in H. congruence.
Qed.

(** A rule without nested tags, with its right-hand sides evaluated. *)
Definition simple (g : gmap string string) (r : rule)
    : option (selector * option string * list (string * string)) :=
  match r with
  | Assign false sel unless own [] => kvs ← values_in g own; Some (sel, unless, kvs)
  | _ => None
  end.

Definition simple_effects
    (es : list (selector * option string * list (string * string)))
    (l : string * gmap string string) : string * gmap string string :=
  foldl (λ l e, simple_effect e.1.1 e.1.2 e.2 l) l es.

Lemma run_simple_rules rs es st :
  mapM (simple (globals_rose_pine st)) rs = Some es →
  ∃ d', run_rules rs st = Ok tt (State (globals_rose_pine st) d')
      ∧ label [] d' = label [] (soup st)
      ∧ ∀ q, q ≠ [] → label q d' = simple_effects es <$> label q (soup st).
Proof.
  revert es st. induction rs as [|r rs IH]; intros es st; simpl.
  - intros [= <-]. exists (soup st). split; [by destruct st|]. split; [done|].
    intros q _. by destruct (label q (soup st)).
  - destruct (simple _ r) as [[[sel unless] kvs]|] eqn:Er; simpl; [|done].
    destruct (mapM _ rs) as [es'|] eqn:Ers; simpl; [|done]. intros [= <-].
    destruct r as [[] sel' unless' own nested|]; simpl in Er; try done.
    destruct nested; [|done].
    destruct (values_in _ own) as [kvs'|] eqn:Ev; simpl in Er; [|done].
    injection Er as -> -> ->.
    destruct (simple_rule_labels sel unless own st kvs Ev) as (d1 & Hrun & Hroot & Hlab).
    destruct (IH es' (State (globals_rose_pine st) d1) Ers) as (d' & Hrun' & Hroot' & Hlab').
    exists d'. split; [|split].
    + rewrite run_rules_cons, bind_unfold, Hrun. done.
    + simpl in *. congruence.
    + intros q Hq. rewrite Hlab' by done. simpl. rewrite Hlab by done.
      by destruct (label q (soup st)).
Qed.

(** ** Arrows (claim C9) *)

(** What rules 8 to 12 do to a [fill] or [stroke] value. *)
Definition arrow_colour (x : string) : string :=
  if decide (x = "#63b8ff") then "#908caa"        (* subtle *)
  else if decide (x = "orange") then "#e0def4"    (* text *)
  else if decide (x = "#9a32cd") then "#c4a7e7"   (* iris *)
  else if decide (x = "#8b1a1a") then "#eb6f92"   (* love *)
  else if decide (x = "darkgreen") then "#f6c177" (* gold *)
  else x.

Definition recolour_value (c v x : string) : string :=
  if decide (x = c) then v else x.

Lemma value_effect k c v nm (a : gmap string string) :
  ∃ a', simple_effect (Sel None [(k, c)]) None [(k, v)] (nm, a) = (nm, a')
      ∧ a' !! k = recolour_value c v <$> a !! k
      ∧ ∀ k', k' ≠ k → a' !! k' = a !! k'.
Proof.
  unfold simple_effect, matches_label, apply_own, inserts, recolour_value. simpl.
  case_bool_decide as E; simpl.
  - eexists. split; [done|]. split.
    + rewrite lookup_insert_eq, E. simpl. by rewrite decide_True.
    + intros k' Hk'. by rewrite lookup_insert_ne.
  - eexists. split; [done|]. split; [|done].
    destruct (a !! k) as [x|]; simpl; [|done]. rewrite decide_False; [done|]. congruence.
Qed.

Lemma arrow_effects_lookup c v nm (a : gmap string string) :
  ∃ a', simple_effects [(Sel None [("fill", c)], None, [("fill", v)]);
                        (Sel None [("stroke", c)], None, [("stroke", v)])] (nm, a)
        = (nm, a')
      ∧ a' !! "fill" = recolour_value c v <$> a !! "fill"
      ∧ a' !! "stroke" = recolour_value c v <$> a !! "stroke"
      ∧ ∀ k, k ≠ "fill" → k ≠ "stroke" → a' !! k = a !! k.
Proof.
  unfold simple_effects. simpl.
  destruct (value_effect "fill" c v nm a) as (a1 & -> & H1 & H1').
  destruct (value_effect "stroke" c v nm a1) as (a2 & -> & H2 & H2').
  exists a2. split; [done|]. split; [|split].
  - rewrite H2' by done. done.
  - rewrite H2, H1' by done. done.
  - intros k Hf Hs. rewrite H2', H1' by done. done.
Qed.

Lemma arrow_colour_chain x :
  recolour_value "darkgreen" "#f6c177"
    (recolour_value "#8b1a1a" "#eb6f92"
       (recolour_value "#9a32cd" "#c4a7e7"
          (recolour_value "orange" "#e0def4"
             (recolour_value "#63b8ff" "#908caa" x))))
  = arrow_colour x.
Proof.
  unfold recolour_value, arrow_colour.
  repeat (case_decide; subst; try done).
Qed.

Lemma simple_effects_app es es' l :
  simple_effects (es ++ es') l = simple_effects es' (simple_effects es l).
Proof. apply foldl_app. Qed.

Definition arrow_effects (c v : string)
    : list (selector * option string * list (string * string)) :=
  [(Sel None [("fill", c)], None, [("fill", v)]);
   (Sel None [("stroke", c)], None, [("stroke", v)])].

Lemma rules_arrows_simple :
  mapM (simple rose_pine) rules_arrows
  = Some (arrow_effects "#63b8ff" "#908caa" ++ arrow_effects "orange" "#e0def4"
          ++ arrow_effects "#9a32cd" "#c4a7e7" ++ arrow_effects "#8b1a1a" "#eb6f92"
          ++ arrow_effects "darkgreen" "#f6c177").
Proof. reflexivity. Qed.

Lemma arrows_effect nm (a : gmap string string) :
  ∃ a', simple_effects
          (arrow_effects "#63b8ff" "#908caa" ++ arrow_effects "orange" "#e0def4"
           ++ arrow_effects "#9a32cd" "#c4a7e7" ++ arrow_effects "#8b1a1a" "#eb6f92"
           ++ arrow_effects "darkgreen" "#f6c177") (nm, a) = (nm, a')
      ∧ a' !! "fill" = arrow_colour <$> a !! "fill"
      ∧ a' !! "stroke" = arrow_colour <$> a !! "stroke"
      ∧ ∀ k, k ≠ "fill" → k ≠ "stroke" → a' !! k = a !! k.
Proof.
  rewrite !simple_effects_app. unfold arrow_effects.
  destruct (arrow_effects_lookup "#63b8ff" "#908caa" nm a) as (a1 & -> & F1 & S1 & O1).
  destruct (arrow_effects_lookup "orange" "#e0def4" nm a1) as (a2 & -> & F2 & S2 & O2).
  destruct (arrow_effects_lookup "#9a32cd" "#c4a7e7" nm a2) as (a3 & -> & F3 & S3 & O3).
  destruct (arrow_effects_lookup "#8b1a1a" "#eb6f92" nm a3) as (a4 & -> & F4 & S4 & O4).
  destruct (arrow_effects_lookup "darkgreen" "#f6c177" nm a4) as (a5 & -> & F5 & S5 & O5).
  exists a5. split; [done|]. split; [|split].
  - rewrite F5, F4, F3, F2, F1. destruct (a !! "fill") as [x|]; simpl; [|done].
    by rewrite arrow_colour_chain.
  - rewrite S5, S4, S3, S2, S1. destruct (a !! "stroke") as [x|]; simpl; [|done].
    by rewrite arrow_colour_chain.
  - intros k Hf Hs. by rewrite O5, O4, O3, O2, O1.
Qed.

(** C9: rules 8 to 12 always complete, and they rewrite [fill] and [stroke]
    independently.  On every tag, [fill] is mapped by [arrow_colour] (so it
    changes only when it is one of the five arrow colours, to the palette
    colour of that arrow colour), [stroke] is mapped by [arrow_colour] of its
    own value, and the name and every other attribute stay. *)
Theorem arrows_fill_and_stroke_independent d q nm (a : gmap string string) :
  q ≠ [] → label q d = Some (nm, a) →
  ∃ d' a',
    arrows (State rose_pine d) = Ok tt (State rose_pine d')
    ∧ label q d' = Some (nm, a')
    ∧ a' !! "fill" = arrow_colour <$> a !! "fill"
    ∧ a' !! "stroke" = arrow_colour <$> a !! "stroke"
    ∧ ∀ k, k ≠ "fill" → k ≠ "stroke" → a' !! k = a !! k.
Proof.
  intros Hq Hl.
  destruct (run_simple_rules rules_arrows _ (State rose_pine d) rules_arrows_simple)
    as (d' & Hrun & _ & Hlab).
  destruct (arrows_effect nm a) as (a' & He & Hf & Hs & Ho).
  exists d', a'. split; [by rewrite arrows_rules|].
  split; [|done]. rewrite Hlab by done. cbn [soup]. rewrite Hl.
  change (Some (simple_effects
    (arrow_effects "#63b8ff" "#908caa" ++ arrow_effects "orange" "#e0def4"
     ++ arrow_effects "#9a32cd" "#c4a7e7" ++ arrow_effects "#8b1a1a" "#eb6f92"
     ++ arrow_effects "darkgreen" "#f6c177") (nm, a)) = Some (nm, a')).
  by rewrite He.
Qed.

Definition sample_path_attrs : gmap string string :=
  list_to_map [("fill", "orange"); ("stroke", "#63b8ff"); ("d", "M0,0")].

Definition sample_arrows : node :=
  Tag "[document]" ∅ [Tag "svg" ∅ [
    Tag "path" sample_path_attrs [];
    Tag "polygon" (list_to_map [("fill", "darkgreen"); ("stroke", "black")]) []]].

Lemma arrows_fill_and_stroke_independent_witness :
  ∃ d' a',
    arrows (State rose_pine sample_arrows) = Ok tt (State rose_pine d')
    ∧ label [0; 0] d' = Some ("path", a')
    ∧ a' !! "fill" = arrow_colour <$> sample_path_attrs !! "fill"
    ∧ a' !! "stroke" = arrow_colour <$> sample_path_attrs !! "stroke"
    ∧ ∀ k, k ≠ "fill" → k ≠ "stroke" → a' !! k = sample_path_attrs !! k.
Proof.
  apply (arrows_fill_and_stroke_independent sample_arrows [0; 0] "path" sample_path_attrs).
  - done.
  - reflexivity.
Defined.

Example sample_path_recoloured :
  arrow_colour <$> sample_path_attrs !! "fill" = Some "#e0def4"
  ∧ arrow_colour <$> sample_path_attrs !! "stroke" = Some "#908caa".
Proof. split; reflexivity. Qed.

(** ** Determinism (claim C10) *)

(** What a run of [rose_pine_ify] on the path [p] produces: the bytes
    written to [p], or the exception. *)
Definition produced (p : string) (o : outcome) : exn + option string :=
  match o with
  | Done w => inr (files w !! p)
  | Failed e _ => inl e
  end.

(** C10: the transformation is deterministic.  Two runs on files with the
    same content, under the same palette, produce the same output content
    (or raise the same exception), whatever the paths of the two files and
    whatever else the two file systems hold. *)
Theorem rose_pine_ify_deterministic lib p1 p2 w1 w2 :
  module_rose_pine w1 = module_rose_pine w2 →
  files w1 !! p1 = files w2 !! p2 →
  produced p1 (rose_pine_ify lib p1 w1) = produced p2 (rose_pine_ify lib p2 w2).
Proof.
  intros Hg Hf. unfold rose_pine_ify. rewrite Hf, Hg.
  destruct (files w2 !! p2) as [text|]; [|done].
  destruct (parse lib text) as [d|]; [|done].
  destruct (recolor _) as [[] st|e]; [|done].
  simpl. by rewrite !lookup_insert_eq.
Qed.

(** A toy library for closed examples: every file parses to the same tree,
    and a tree is printed as the text of its strings. *)
Definition sample_lib : bs4 := Bs4 (λ _, Some sample_css) dot_text.

Definition sample_world_1 : world :=
  World rose_pine {["a__coll__graph.svg" := "<svg/>"]}.
Definition sample_world_2 : world :=
  World rose_pine {["b_dep.svg" := "<svg/>"; "graph_legend.svg" := "<svg></svg>"]}.

Lemma rose_pine_ify_deterministic_witness :
  produced "a__coll__graph.svg" (rose_pine_ify sample_lib "a__coll__graph.svg" sample_world_1)
  = produced "b_dep.svg" (rose_pine_ify sample_lib "b_dep.svg" sample_world_2).
Proof. apply rose_pine_ify_deterministic; reflexivity. Defined.

(** ** Tags that a rule does not select *)

Lemma run_nested_frame e n s s' q l :
  run_nested e n s = Ok tt s' →
  label q (soup s) = Some l → matches_label n.1 l.1 l.2 = false →
  label q (soup s') = Some l.
Proof.
  rewrite run_nested_unfold. intros Hrun Hl Hm.
  destruct (head _) as [c|] eqn:Ec.
  - rewrite for_each_assign_Some in Hrun.
    destruct (values_in _ _) as [kvs|]; [|done]. injection Hrun as <-. simpl.
    unfold set_attrs. rewrite label_update_attrs, decide_False; [done|].
    intros ->. apply head_Some_elem_of in Ec.
    apply elem_of_find_all_at in Ec as (r & _ & _ & Hc).
    unfold matches_at in Hc. rewrite Hl in Hc. destruct l. simpl in *. congruence.
  - rewrite for_each_assign_None in Hrun. destruct n.2; [|by destruct (value_in _ _)].
    by injection Hrun as <-.
Qed.

Lemma run_body_frame unless own nested e s s' q l :
  run_body unless own nested e s = Ok tt s' →
  q ≠ e → label q (soup s) = Some l →
  Forall (λ n, matches_label n.1 l.1 l.2 = false) nested →
  label q (soup s') = Some l.
Proof.
  intros Hrun Hq Hl Hn. unfold run_body in Hrun. rewrite bind_unfold in Hrun.
  assert (∃ b, match unless with Some key => has_attr e key | None => mret false end s
               = Ok b s) as [b Hb] by (destruct unless; by eexists).
  rewrite Hb in Hrun. destruct b; [by injection Hrun as <-|].
  rewrite bind_unfold, for_each_assign_Some in Hrun.
  destruct (values_in _ own) as [kvs|]; [|done].
  eapply (for_each_inv (λ s, label q (soup s) = Some l)) in Hrun; [done| |].
  - intros n s1 s2 Hin Hl1 Hrun1. eapply run_nested_frame; [done..|].
    rewrite Forall_forall in Hn. by apply Hn.
  - simpl. unfold set_attrs. by rewrite label_update_attrs, decide_False.
Qed.

(** The rule [r] selects no tag with the name and attributes [l]: neither
    its selector nor the selectors of its nested tags match [l].  The style
    sheet rule changes no tag at all. *)
Definition unselected (r : rule) (l : string * gmap string string) : Prop :=
  match r with
  | Assign _ _ _ _ _ =>
      Forall (λ sel, matches_label sel l.1 l.2 = false) (rule_selectors r)
  | Retext _ _ => True
  end.

Lemma run_rule_frame r st st' q l :
  run_rule r st = Ok tt st' →
  label q (soup st) = Some l → unselected r l →
  label q (soup st') = Some l.
Proof.
  intros Hrun Hl Hun. destruct r as [first sel unless own nested|sel subst].
  - simpl in Hun. apply Forall_cons in Hun as [Hsel Hnested].
    rewrite Forall_fmap in Hnested.
    assert (∀ e s, e ∈ find_all_at [] sel (soup s) → label q (soup s) = Some l → q ≠ e)
      as Hne.
    { intros e s [_ He]%elem_of_find_all_root Hls ->. unfold matches_at in He.
      rewrite Hls in He. destruct l. simpl in *. congruence. }
    destruct first; simpl in Hrun; unfold find, find_all in Hrun;
      rewrite bind_unfold in Hrun.
    + destruct (head _) as [e|] eqn:Ee; [|by injection Hrun as <-].
      eapply run_body_frame; [done| |done..].
      eapply Hne; [|done]. by apply head_Some_elem_of.
    + assert (∀ e, e ∈ find_all_at [] sel (soup st) → q ≠ e) as Hne'
        by (intros e He; by eapply Hne).
      eapply (for_each_inv (λ s, label q (soup s) = Some l)) in Hrun; [done| |done].
      intros e s1 s2 Hin Hl1 Hrun1. eapply run_body_frame; [done| |done..].
      by apply Hne'.
  - apply run_rule_steps in Hrun as [_ Hsteps].
    by erewrite steps_label_text.
Qed.

Lemma run_rules_frame rs st st' q l :
  run_rules rs st = Ok tt st' →
  label q (soup st) = Some l → Forall (λ r, unselected r l) rs →
  label q (soup st') = Some l.
Proof.
  intros Hrun Hl Hun.
  eapply (for_each_inv (λ s, label q (soup s) = Some l)) in Hrun; [done| |done].
  intros r s1 s2 Hin Hl1 Hrun1. eapply run_rule_frame; [done..|].
  rewrite Forall_forall in Hun. by apply Hun.
Qed.

(** ** The two halves of the catalogue *)

(** Rules 1 to 12 have no nested tags. *)
Definition rules_simple : list rule :=
  [rule_background; rule_base_classes; rule_undocumented_classes;
   rule_inherited_classes; rule_truncated_classes; rule_text_near_arrows;
   rule_text_in_classes] ++ rules_arrows.

Definition rules_nested : list rule :=
  [rule_style_sheets; rule_navigator; rule_buttons; rule_arrow_out].

Lemma catalogue_halves : catalogue = rules_simple ++ rules_nested.
Proof. reflexivity. Qed.

Definition effects_simple
    : list (selector * option string * list (string * string)) :=
  Eval vm_compute in default [] (mapM (simple rose_pine) rules_simple).

Lemma rules_simple_effects : mapM (simple rose_pine) rules_simple = Some effects_simple.
Proof. reflexivity. Qed.

Lemma recolor_halves d st' :
  recolor (State rose_pine d) = Ok tt st' →
  ∃ d1, run_rules rules_simple (State rose_pine d) = Ok tt (State rose_pine d1)
      ∧ (∀ q, q ≠ [] → label q d1 = simple_effects effects_simple <$> label q d)
      ∧ run_rules rules_nested (State rose_pine d1) = Ok tt st'.
Proof.
  rewrite recolor_catalogue, catalogue_halves, run_rules_app, bind_unfold.
  destruct (run_simple_rules rules_simple _ (State rose_pine d) rules_simple_effects)
    as (d1 & Hrun & _ & Hlab).
  rewrite Hrun. intros H. exists d1. done.
Qed.

Lemma simple_effects_cons e es l :
  simple_effects (e :: es) l = simple_effects es (simple_effect e.1.1 e.1.2 e.2 l).
Proof. done. Qed.

Lemma no_effects es l :
  Forall (λ e, matches_label e.1.1 l.1 l.2 = false) es → simple_effects es l = l.
Proof.
  induction 1 as [|e es He _ IH]; [done|].
  unfold simple_effects in *. cbn [foldl]. unfold simple_effect at 2. by rewrite He.
Qed.

Lemma matches_label_other_name sel x nm a :
  sel_name sel = Some x → nm ≠ x → matches_label sel nm a = false.
Proof.
  intros Hs Hne. unfold matches_label. rewrite Hs.
  by rewrite bool_decide_eq_false_2.
Qed.

(** Evaluation of a selector on attributes of which [fill] and [stroke]
    are known. *)
Ltac eval_match Hf Hs :=
  unfold matches_label; cbn [sel_name sel_attrs forallb fst snd];
  rewrite ?Hf, ?Hs; vm_compute; reflexivity.

Ltac other_names :=
  repeat constructor;
  (eapply matches_label_other_name; [reflexivity|discriminate]).

(** ** The background polygon (claim C6) *)

Lemma background_polygon_effects (a : gmap string string) :
  a !! "fill" = Some "white" → a !! "stroke" = Some "transparent" →
  simple_effects effects_simple ("polygon", a) = ("polygon", <["fill" := "none"]> a).
Proof.
  intros Hf Hs. unfold effects_simple. rewrite simple_effects_cons.
  cbn [fst snd]. unfold simple_effect at 1. cbn [fst snd].
  assert (matches_label (Sel (Some "polygon") [("fill", "white"); ("stroke", "transparent")])
            "polygon" a = true) as -> by eval_match Hf Hs.
  unfold apply_own, inserts. cbn [foldl fst snd].
  assert (<["fill" := "none"]> a !! "fill" = Some "none") as Hf'
    by apply lookup_insert_eq.
  assert (<["fill" := "none"]> a !! "stroke" = Some "transparent") as Hs'
    by (by rewrite lookup_insert_ne).
  set (a' := <["fill" := "none"]> a) in *. clearbody a'.
  apply no_effects. repeat (constructor; [cbn [fst snd]; eval_match Hf' Hs'|]).
  constructor.
Qed.

(** C6: when the transformation completes on a document, every polygon of
    the document with fill "white" and stroke "transparent" has fill "none"
    in the output, and its stroke (still "transparent") and all its other
    attributes are those of the input. *)
Theorem background_polygon_fill_none d st' q (a : gmap string string) :
  q ≠ [] → label q d = Some ("polygon", a) →
  a !! "fill" = Some "white" → a !! "stroke" = Some "transparent" →
  recolor (State rose_pine d) = Ok tt st' →
  ∃ a', label q (soup st') = Some ("polygon", a')
      ∧ a' !! "fill" = Some "none"
      ∧ a' !! "stroke" = Some "transparent"
      ∧ a' = <["fill" := "none"]> a.
Proof.
  intros Hq Hl Hf Hs Hrun.
  apply recolor_halves in Hrun as (d1 & _ & Hlab & Hrun).
  exists (<["fill" := "none"]> a). split; [|split; [|split]].
  - eapply run_rules_frame; [done| |].
    + cbn [soup]. rewrite Hlab, Hl by done. cbn [fmap option_fmap option_map].
      by rewrite background_polygon_effects.
    + unfold rules_nested. repeat constructor; cbn [unselected rule_selectors fmap list_fmap fst];
        try done; other_names.
  - apply lookup_insert_eq.
  - by rewrite lookup_insert_ne.
  - done.
Qed.

(** The tree after the rules, for closed examples. *)
Definition recolored (d : node) : node :=
  match recolor (State rose_pine d) with
  | Ok _ st => soup st
  | Raise _ => d
  end.

Lemma background_polygon_fill_none_witness :
  ∃ a', label [0; 0] (soup (State rose_pine (recolored sample_polygons)))
        = Some ("polygon", a')
      ∧ a' !! "fill" = Some "none"
      ∧ a' !! "stroke" = Some "transparent"
      ∧ a' = <["fill" := "none"]>
               (list_to_map [("fill", "white"); ("stroke", "transparent")]).
Proof.
  apply (background_polygon_fill_none sample_polygons
           (State rose_pine (recolored sample_polygons))
           [0; 0] (list_to_map [("fill", "white"); ("stroke", "transparent")])).
  - done.
  - reflexivity.
  - reflexivity.
  - reflexivity.
  - vm_compute. reflexivity.
Defined.

(** * Further properties of the script *)

(** ** The file system *)

Lemma rose_pine_ify_failed lib svg_file_path w e w' :
  rose_pine_ify lib svg_file_path w = Failed e w' → w' = w.
Proof.
  unfold rose_pine_ify. destruct (files w !! _) as [text|]; [|by intros [= _ <-]].
  destruct (parse lib text) as [d|]; [|by intros [= _ <-]].
  destruct (recolor _) as [[] st|e']; [done|by intros [= _ <-]].
Qed.

Lemma rose_pine_ify_other_file lib svg_file_path w other :
  other ≠ svg_file_path →
  files (world_of (rose_pine_ify lib svg_file_path w)) !! other = files w !! other.
Proof.
  intros Hne. unfold rose_pine_ify. destruct (files w !! _) as [text|]; [|done].
  destruct (parse lib text) as [d|]; [|done].
  destruct (recolor _) as [[] st|e']; [|done].
  cbn [world_of files]. by rewrite lookup_insert_ne.
Qed.

Lemma main_loop_frame lib svg_file_paths w other :
  other ∉ svg_file_paths →
  files (world_of (main_loop lib svg_file_paths w)) !! other = files w !! other.
Proof.
  revert w. induction svg_file_paths as [|p ps IH]; intros w Hnin; [done|].
  apply not_elem_of_cons in Hnin as [Hne Hnin]. cbn [main_loop].
  pose proof (rose_pine_ify_other_file lib p w other Hne) as H.
  destruct (rose_pine_ify lib p w) as [w'|e w']; cbn [world_of] in *; [|done].
  by rewrite IH.
Qed.

(** The loop over the files writes to no path that is not in its list:
    every other file keeps its content, whether the loop completes or
    raises. *)
Theorem main_loop_other_files lib svg_file_paths w other :
  other ∉ svg_file_paths →
  files (world_of (main_loop lib svg_file_paths w)) !! other = files w !! other.
Proof. apply main_loop_frame. Qed.

Lemma main_loop_other_files_witness :
  files (world_of (main_loop sample_lib ["b_dep.svg"] sample_world_2)) !! "graph_legend.svg"
  = files sample_world_2 !! "graph_legend.svg".
Proof. apply main_loop_other_files. set_solver. Defined.

Lemma main_loop_app lib ps ps' w :
  main_loop lib (ps ++ ps') w
  = match main_loop lib ps w with
    | Done w' => main_loop lib ps' w'
    | Failed e w' => Failed e w'
    end.
Proof.
  revert w. induction ps as [|p ps IH]; intros w; [done|].
  cbn [app main_loop]. destruct (rose_pine_ify lib p w) as [w'|e w']; [apply IH|done].
Qed.

(** A file that fails stops the loop without any isolation: the files
    before it stay rewritten, the failing file and all the files after it
    keep their content, and the exception of the failing file is the
    outcome of the whole loop. *)
Theorem main_loop_stops_at_first_failure lib before failing after w w1 e w' :
  main_loop lib before w = Done w1 →
  rose_pine_ify lib failing w1 = Failed e w' →
  main_loop lib (before ++ failing :: after) w = Failed e w1.
Proof.
  intros Hb Hf. rewrite main_loop_app, Hb. cbn [main_loop]. rewrite Hf.
  by rewrite (rose_pine_ify_failed _ _ _ _ _ Hf).
Qed.

Lemma main_loop_stops_at_first_failure_witness :
  main_loop sample_lib (["a__coll__graph.svg"] ++ "missing.svg" :: ["a__coll__graph.svg"])
    sample_world_1
  = Failed OSError (world_of (main_loop sample_lib ["a__coll__graph.svg"] sample_world_1)).
Proof.
  apply (main_loop_stops_at_first_failure sample_lib ["a__coll__graph.svg"] "missing.svg"
           ["a__coll__graph.svg"] sample_world_1 _ OSError
           (world_of (main_loop sample_lib ["a__coll__graph.svg"] sample_world_1))).
  - vm_compute. reflexivity.
  - vm_compute. reflexivity.
Defined.

(** ** The exceptions of the rules *)

Lemma for_each_raise_inv {A} (I : state → Prop) (xs : list A) (body : A → M unit) st e :
  (∀ x s s', I s → body x s = Ok tt s' → I s') →
  I st → for_each xs body st = Raise e →
  ∃ x s, x ∈ xs ∧ I s ∧ body x s = Raise e.
Proof.
  intros Hpres. revert st. induction xs as [|x xs IH]; intros st HI; [done|].
  rewrite for_each_cons. destruct (body x st) as [[] s'|e'] eqn:E.
  - intros H. destruct (IH s') as (y & s & Hy & Hs & Hr); [by eapply Hpres|done|].
    exists y, s. split; [apply elem_of_cons; by right|done].
  - intros [= ->]. exists x, st. split; [apply elem_of_cons; by left|done].
Qed.

Lemma evals_values_in subst st :
  evals subst st = match values_in (globals_rose_pine st) subst with
                   | Some kvs => Ok kvs st
                   | None => Raise KeyError
                   end.
Proof.
  induction subst as [|[old v] subst IH]; [done|].
  cbn [evals]. rewrite bind_unfold, eval_value_in. unfold values_in. cbn [mapM fst snd].
  destruct (value_in _ v) as [s|]; [|done]. cbn [fmap option_fmap option_map mbind option_bind].
  rewrite bind_unfold, IH. unfold values_in.
  by destruct (mapM _ subst).
Qed.

(** Every right-hand side of the rule has a value under the palette [g]. *)
Definition evaluable (g : gmap string string) (r : rule) : Prop :=
  match r with
  | Assign _ _ _ own nested =>
      Forall (λ ws, is_Some (values_in g ws)) (own :: (snd <$> nested))
  | Retext _ subst => is_Some (values_in g subst)
  end.

Lemma run_nested_raise e n st x :
  is_Some (values_in (globals_rose_pine st) n.2) →
  run_nested e n st = Raise x → x = TypeError.
Proof.
  intros [kvs Hv]. rewrite run_nested_unfold. destruct (head _) as [c|].
  - by rewrite for_each_assign_Some, Hv.
  - rewrite for_each_assign_None. destruct n.2 as [|[k v] ws]; [done|].
    unfold values_in in Hv. cbn [mapM fst snd] in Hv. cbn [snd].
    destruct (value_in _ v); [by intros [= <-]|done].
Qed.

Lemma run_nested_globals e n s s' :
  run_nested e n s = Ok tt s' → globals_rose_pine s' = globals_rose_pine s.
Proof.
  rewrite run_nested_unfold. destruct (head _) as [c|].
  - rewrite for_each_assign_Some. destruct (values_in _ _); [|done]. by intros [= <-].
  - rewrite for_each_assign_None. destruct n.2; [by intros [= <-]|].
    by destruct (value_in _ _).
Qed.

Lemma run_body_raise g first sel unless own nested e st x :
  evaluable g (Assign first sel unless own nested) →
  globals_rose_pine st = g →
  run_body unless own nested e st = Raise x → x = TypeError.
Proof.
  intros [[kvs Hown] Hnested]%Forall_cons Hg. unfold run_body. rewrite bind_unfold.
  assert (∃ b, match unless with Some key => has_attr e key | None => mret false end st
               = Ok b st) as [b ->] by (destruct unless; by eexists).
  destruct b; [done|]. rewrite bind_unfold, for_each_assign_Some, Hg, Hown.
  intros H. apply (for_each_raise_inv (λ s, globals_rose_pine s = g)) in H
    as (n & s & Hn & Hs & Hr); [| |done].
  - eapply run_nested_raise; [|done]. rewrite Hs.
    rewrite Forall_fmap, Forall_forall in Hnested. by apply Hnested.
  - intros n s s' Hs Hrun. apply run_nested_globals in Hrun. congruence.
Qed.

Lemma run_retext_raise g sel subst e st x :
  evaluable g (Retext sel subst) → globals_rose_pine st = g →
  run_retext subst e st = Raise x → x = AttributeError.
Proof.
  intros [kvs Hv] Hg. unfold run_retext, string_of, getattr_replace_with, text_of,
    replace_with. rewrite !bind_unfold.
  destruct (_ ≫= _) as [s|]; [|by intros [= <-]].
  rewrite !bind_unfold, evals_values_in, Hg, Hv. done.
Qed.

Lemma run_rule_raise r st x :
  evaluable (globals_rose_pine st) r →
  run_rule r st = Raise x → x = TypeError ∨ x = AttributeError.
Proof.
  intros Hev. set (g := globals_rose_pine st) in *.
  destruct r as [[] sel unless own nested|sel subst]; cbn [run_rule];
    unfold find, find_all; rewrite bind_unfold.
  - destruct (head _) as [e|]; [|done]. intros H. left. by eapply run_body_raise.
  - intros H. apply (for_each_raise_inv (λ s, globals_rose_pine s = g)) in H
      as (e & s & _ & Hs & Hr); [| |done].
    + left. by eapply run_body_raise.
    + intros e s s' Hs Hrun.
      by destruct (run_body_steps g false sel unless own nested e s s' Hs Hrun).
  - intros H. apply (for_each_raise_inv (λ s, globals_rose_pine s = g)) in H
      as (e & s & _ & Hs & Hr); [| |done].
    + right. by eapply run_retext_raise.
    + intros e s s' Hs. unfold run_retext, string_of, getattr_replace_with, text_of,
        replace_with. rewrite !bind_unfold.
      destruct (_ ≫= _) as [q|]; [|done].
      rewrite !bind_unfold, evals_values_in. destruct (values_in _ _); [|done].
      by intros [= <-].
Qed.

Lemma catalogue_evaluable r : r ∈ catalogue → evaluable rose_pine r.
Proof.
  intros Hr.
  assert (Forall (evaluable rose_pine) catalogue) as H.
  { unfold catalogue, rules_arrows, arrow_rules. cbn [app].
    repeat constructor; by eexists. }
  rewrite Forall_forall in H. by apply H.
Qed.

(** Under the palette of the script the rules never raise [KeyError]: every
    role they look up exists.  When they raise, it is [TypeError], from an
    assignment to a nested tag that [find] did not find, or
    [AttributeError], from a style sheet without a single string. *)
Theorem recolor_exceptions d e :
  recolor (State rose_pine d) = Raise e → e = TypeError ∨ e = AttributeError.
Proof.
  rewrite recolor_catalogue. intros H.
  apply (for_each_raise_inv (λ s, globals_rose_pine s = rose_pine)) in H
    as (r & s & Hr & Hs & Hraise); [| |done].
  - eapply run_rule_raise; [|done]. rewrite Hs. by apply catalogue_evaluable.
  - intros r s s' Hs Hrun. apply run_rule_steps in Hrun as [? _]. congruence.
Qed.

Lemma recolor_exceptions_witness :
  TypeError = TypeError ∨ TypeError = AttributeError.
Proof.
  apply (recolor_exceptions sample_navigator_without_rect TypeError).
  vm_compute. reflexivity.
Defined.

(** ** The class polygons (rules 2 to 5) *)

Lemma effects_skip e es l :
  matches_label e.1.1 l.1 l.2 = false →
  simple_effects (e :: es) l = simple_effects es l.
Proof. intros H. rewrite simple_effects_cons. unfold simple_effect. by rewrite H. Qed.

Lemma effects_hit sel kvs es nm a :
  matches_label sel nm a = true →
  simple_effects ((sel, None, kvs) :: es) (nm, a) = simple_effects es (nm, inserts kvs a).
Proof.
  intros H. rewrite simple_effects_cons. unfold simple_effect. cbn [fst snd].
  by rewrite H.
Qed.

(** The polygons of the four kinds of class boxes: fill and stroke in the
    generated graph, and fill in the recoloured graph. *)
Definition class_boxes : list (string * string * string) :=
  [("white", "#666666", "#f6c177");     (* base classes: gold *)
   ("#e0e0e0", "#999999", "#ebbcba");   (* undocumented classes: rose *)
   ("#999999", "#666666", "#c4a7e7");   (* inherited classes: iris *)
   ("#fff0f0", "red", "#6e6a86")].      (* truncated classes: muted *)

Lemma class_box_effects fill stroke colour (a : gmap string string) :
  (fill, stroke, colour) ∈ class_boxes →
  a !! "fill" = Some fill → a !! "stroke" = Some stroke →
  simple_effects effects_simple ("polygon", a)
  = ("polygon", <["stroke" := "none"]> (<["fill" := colour]> a)).
Proof.
  intros Hin Hf Hs.
  assert (<["stroke" := "none"]> (<["fill" := colour]> a) !! "fill" = Some colour) as Hf'
    by (by rewrite lookup_insert_ne, lookup_insert_eq).
  assert (<["stroke" := "none"]> (<["fill" := colour]> a) !! "stroke" = Some "none") as Hs'
    by apply lookup_insert_eq.
  unfold effects_simple, class_boxes in *.
  repeat (apply elem_of_cons in Hin as [[= -> -> ->]|Hin]);
    [| | | |by apply elem_of_nil in Hin].
  - rewrite effects_skip by (cbn [fst snd]; eval_match Hf Hs).
    rewrite effects_hit by eval_match Hf Hs. unfold inserts. cbn [foldl fst snd].
    set (a' := <["stroke" := "none"]> _) in *. clearbody a'.
    apply no_effects. repeat (constructor; [cbn [fst snd]; eval_match Hf' Hs'|]).
    constructor.
  - do 2 rewrite effects_skip by (cbn [fst snd]; eval_match Hf Hs).
    rewrite effects_hit by eval_match Hf Hs. unfold inserts. cbn [foldl fst snd].
    set (a' := <["stroke" := "none"]> _) in *. clearbody a'.
    apply no_effects. repeat (constructor; [cbn [fst snd]; eval_match Hf' Hs'|]).
    constructor.
  - do 3 rewrite effects_skip by (cbn [fst snd]; eval_match Hf Hs).
    rewrite effects_hit by eval_match Hf Hs. unfold inserts. cbn [foldl fst snd].
    set (a' := <["stroke" := "none"]> _) in *. clearbody a'.
    apply no_effects. repeat (constructor; [cbn [fst snd]; eval_match Hf' Hs'|]).
    constructor.
  - do 4 rewrite effects_skip by (cbn [fst snd]; eval_match Hf Hs).
    rewrite effects_hit by eval_match Hf Hs. unfold inserts. cbn [foldl fst snd].
    set (a' := <["stroke" := "none"]> _) in *. clearbody a'.
    apply no_effects. repeat (constructor; [cbn [fst snd]; eval_match Hf' Hs'|]).
    constructor.
Qed.

(** When the transformation completes, every polygon that had the fill and
    the stroke of one of the four kinds of class boxes has the palette
    colour of its kind as fill and "none" as stroke, and its other
    attributes are those of the input. *)
Theorem class_boxes_recoloured d st' q fill stroke colour (a : gmap string string) :
  (fill, stroke, colour) ∈ class_boxes →
  q ≠ [] → label q d = Some ("polygon", a) →
  a !! "fill" = Some fill → a !! "stroke" = Some stroke →
  recolor (State rose_pine d) = Ok tt st' →
  label q (soup st')
  = Some ("polygon", <["stroke" := "none"]> (<["fill" := colour]> a)).
Proof.
  intros Hin Hq Hl Hf Hs Hrun.
  apply recolor_halves in Hrun as (d1 & _ & Hlab & Hrun).
  eapply run_rules_frame; [done| |].
  - cbn [soup]. rewrite Hlab, Hl by done. cbn [fmap option_fmap option_map].
    by erewrite class_box_effects.
  - unfold rules_nested.
    repeat constructor; cbn [unselected rule_selectors fmap list_fmap fst];
      try done; other_names.
Qed.

Lemma class_boxes_recoloured_witness :
  label [0; 1] (soup (State rose_pine (recolored sample_polygons)))
  = Some ("polygon", <["stroke" := "none"]> (<["fill" := "#f6c177"]>
            (list_to_map [("fill", "white"); ("stroke", "#666666")]))).
Proof.
  apply (class_boxes_recoloured sample_polygons
           (State rose_pine (recolored sample_polygons)) [0; 1] "white" "#666666").
  - unfold class_boxes. set_solver.
  - done.
  - reflexivity.
  - reflexivity.
  - reflexivity.
  - vm_compute. reflexivity.
Defined.

(** ** Tags and attributes are never removed *)

Lemma step_keeps_tags g r d d' q :
  step g r d d' →
  match label q d with
  | Some (nm, a) => ∃ a', label q d' = Some (nm, a') ∧ dom a ⊆ dom a'
  | None => label q d' = None
  end.
Proof.
  intros Hs. inversion Hs as [p ws kvs ? Hws Hv|? ? ? ? ? ? s ? ? ? Hsub]; subst.
  - unfold set_attrs. rewrite label_update_attrs. case_decide as E.
    + subst p. destruct (label q d) as [[nm a]|]; [|done].
      eexists. split; [done|]. cbn [snd]. fold (inserts kvs a).
      rewrite inserts_union, dom_union_L. set_solver.
    + destruct (label q d) as [[nm a]|]; [|done]. by exists a.
  - erewrite label_update_string by done.
    destruct (label q d) as [[nm a]|]; [|done]. by exists a.
Qed.

Lemma any_steps_keep_tags g rs d d' q :
  rtc (any_step g rs) d d' →
  match label q d with
  | Some (nm, a) => ∃ a', label q d' = Some (nm, a') ∧ dom a ⊆ dom a'
  | None => label q d' = None
  end.
Proof.
  induction 1 as [d|d1 d2 d3 (r & _ & Hs) _ IH].
  - destruct (label q d) as [[nm a]|]; [|done]. by exists a.
  - pose proof (step_keeps_tags g r d1 d2 q Hs) as H12.
    destruct (label q d1) as [[nm a]|].
    + destruct H12 as (a2 & Hl2 & Hd2). rewrite Hl2 in IH.
      destruct IH as (a3 & Hl3 & Hd3). exists a3. split; [done|]. set_solver.
    + by rewrite H12 in IH.
Qed.

(** The rules never remove, add or rename a tag and never delete an
    attribute: at every position, a tag of the input is a tag with the same
    name in the output and all its attribute keys are still present, and a
    position that is no tag in the input is no tag in the output. *)
Theorem recolor_keeps_tags_and_keys d st' q :
  recolor (State rose_pine d) = Ok tt st' →
  match label q d with
  | Some (nm, a) => ∃ a', label q (soup st') = Some (nm, a') ∧ dom a ⊆ dom a'
  | None => label q (soup st') = None
  end.
Proof.
  intros Hrun. apply recolor_steps in Hrun as [_ Hsteps].
  by eapply any_steps_keep_tags.
Qed.

Lemma recolor_keeps_tags_and_keys_witness :
  match label [0; 1] sample_css with
  | Some (nm, a) =>
      ∃ a', label [0; 1] (soup (State rose_pine (recolored sample_css))) = Some (nm, a')
            ∧ dom a ⊆ dom a'
  | None => label [0; 1] (soup (State rose_pine (recolored sample_css))) = None
  end.
Proof.
  apply (recolor_keeps_tags_and_keys sample_css (State rose_pine (recolored sample_css))).
  vm_compute. reflexivity.
Defined.

(** * Collecting the files: [glob] over the wildcards *)

(** [glob.glob(path.join(sys.argv[1], wildcard))], for a directory name
    without glob metacharacters: the entries of the directory whose name
    matches the wildcard, each one joined to the directory.  The wildcards
    of the script use [*] as their only metacharacter, and names are
    compared as POSIX does, case sensitively. *)

Definition star : Ascii.ascii := Ascii.ascii_of_nat 42.
Definition dot : Ascii.ascii := Ascii.ascii_of_nat 46.

(** [fnmatch] for patterns of literal characters and [*]. *)
Fixpoint fnmatch_chars (pat : list Ascii.ascii) : list Ascii.ascii → bool :=
  match pat with
  | [] => λ name, match name with [] => true | _ :: _ => false end
  | c :: pat' =>
      if decide (c = star)
      then fix any (name : list Ascii.ascii) : bool :=
             fnmatch_chars pat' name
             || match name with [] => false | _ :: name' => any name' end
      else λ name,
             match name with
             | c' :: name' => bool_decide (c = c') && fnmatch_chars pat' name'
             | [] => false
             end
  end.

Definition fnmatch (name pat : string) : bool :=
  fnmatch_chars (String.list_ascii_of_string pat) (String.list_ascii_of_string name).

(** [glob] skips the names that start with a dot, unless the pattern does. *)
Definition ishidden (s : string) : bool :=
  match s with
  | String c _ => bool_decide (c = dot)
  | EmptyString => false
  end.

Definition glob_matches (pattern name : string) : bool :=
  (ishidden pattern || negb (ishidden name)) && fnmatch name pattern.

(** [listing] is the directory, [joined] the path of an entry. *)
Definition glob (joined : string → string) (listing : list string)
    (pattern : string) : list string :=
  joined <$> filter (λ name, glob_matches pattern name = true) listing.

Definition svg_file_wildcards : list string :=
  ["*__dep__incl.svg"; "*__inherit__graph.svg"; "*__coll__graph.svg";
   "*_dep.svg"; "graph_legend.svg"].

(** [for wildcard in svg_file_wildcards: svg_file_paths += glob.glob(...)];
    the wildcards are a Python set, iterated in an order [wildcards] that
    the script does not control. *)
Definition svg_file_paths (joined : string → string) (listing : list string)
    (wildcards : list string) : list string :=
  wildcard ← wildcards; glob joined listing wildcard.

Example glob_collects :
  svg_file_paths (λ name, "html/" +:+ name)
    ["a__coll__graph.svg"; "index.html"; ".x_dep.svg"; "graph_legend.svg"; "b_dep.svg"]
    svg_file_wildcards
  = ["html/a__coll__graph.svg"; "html/b_dep.svg"; "html/graph_legend.svg"].
Proof. reflexivity. Qed.

Lemma fnmatch_literal pat name :
  star ∉ pat → fnmatch_chars pat name = true ↔ name = pat.
Proof.
  revert name. induction pat as [|c pat IH]; intros name Hstar.
  - destruct name; cbn [fnmatch_chars]; naive_solver.
  - apply not_elem_of_cons in Hstar as [Hc Hstar]. cbn [fnmatch_chars].
    rewrite decide_False by done. destruct name as [|c' name]; [naive_solver|].
    rewrite andb_true_iff, bool_decide_eq_true, IH by done. naive_solver.
Qed.

Lemma fnmatch_star suf name :
  star ∉ suf → fnmatch_chars (star :: suf) name = true ↔ suf `suffix_of` name.
Proof.
  intros Hstar. cbn [fnmatch_chars]. rewrite decide_True by done.
  induction name as [|c name IH].
  - rewrite orb_false_r, fnmatch_literal by done. split.
    + intros <-. done.
    + intros H%suffix_nil_inv. done.
  - rewrite orb_true_iff, IH, fnmatch_literal by done. split.
    + intros [<-|H]; [done|by apply suffix_cons_r].
    + intros [[|c' k] Hk].
      * left. simpl in Hk. done.
      * right. exists k. simpl in Hk. by injection Hk.
Qed.

(** The literal end of a wildcard. *)
Definition wildcard_tail (pattern : string) : list Ascii.ascii :=
  match String.list_ascii_of_string pattern with
  | c :: rest => if decide (c = star) then rest else c :: rest
  | [] => []
  end.

Lemma fnmatch_tail name pattern :
  star ∉ wildcard_tail pattern →
  fnmatch name pattern = true →
  wildcard_tail pattern `suffix_of` String.list_ascii_of_string name.
Proof.
  unfold fnmatch, wildcard_tail.
  destruct (String.list_ascii_of_string pattern) as [|c rest]; [intros; apply suffix_nil|].
  destruct (decide (c = star)) as [->|Hc]; intros Hstar.
  - by rewrite fnmatch_star.
  - rewrite fnmatch_literal by done. by intros ->.
Qed.

Lemma suffixes_comparable {A} (s1 s2 n : list A) :
  s1 `suffix_of` n → s2 `suffix_of` n → s1 `suffix_of` s2 ∨ s2 `suffix_of` s1.
Proof.
  intros [k1 ->] [k2 H]. apply app_eq_inv in H as [(k & _ & Hk)|(k & _ & Hk)].
  - left. by exists k.
  - right. by exists k.
Qed.

Definition tails_checked : bool :=
  forallb (λ w1,
    bool_decide (star ∉ wildcard_tail w1)
    && forallb (λ w2,
         bool_decide (w1 = w2)
         || negb (bool_decide (wildcard_tail w1 `suffix_of` wildcard_tail w2)))
       svg_file_wildcards) svg_file_wildcards.

Lemma tails_checked_true : tails_checked = true.
Proof. vm_compute. reflexivity. Qed.

Lemma wildcard_tail_literal w : w ∈ svg_file_wildcards → star ∉ wildcard_tail w.
Proof.
  intros Hw. pose proof tails_checked_true as H. unfold tails_checked in H.
  rewrite forallb_forall in H. apply list_elem_of_In, H in Hw.
  apply andb_true_iff in Hw as [Hw _]. by apply bool_decide_eq_true in Hw.
Qed.

Lemma wildcard_tails_incomparable w1 w2 :
  w1 ∈ svg_file_wildcards → w2 ∈ svg_file_wildcards →
  wildcard_tail w1 `suffix_of` wildcard_tail w2 → w1 = w2.
Proof.
  intros Hw1 Hw2 Hsuf. pose proof tails_checked_true as H. unfold tails_checked in H.
  rewrite forallb_forall in H. apply list_elem_of_In, H in Hw1.
  apply andb_true_iff in Hw1 as [_ Hw1]. rewrite forallb_forall in Hw1.
  apply list_elem_of_In, Hw1 in Hw2. apply orb_true_iff in Hw2 as [Heq|Hno].
  - by apply bool_decide_eq_true in Heq.
  - apply negb_true_iff, bool_decide_eq_false in Hno. done.
Qed.

(** No name matches two wildcards of the script. *)
Lemma wildcards_disjoint w1 w2 name :
  w1 ∈ svg_file_wildcards → w2 ∈ svg_file_wildcards →
  fnmatch name w1 = true → fnmatch name w2 = true → w1 = w2.
Proof.
  intros Hw1 Hw2 H1 H2.
  apply fnmatch_tail in H1; [|by apply wildcard_tail_literal].
  apply fnmatch_tail in H2; [|by apply wildcard_tail_literal].
  destruct (suffixes_comparable _ _ _ H1 H2) as [H|H].
  - by apply wildcard_tails_incomparable.
  - symmetry. by apply wildcard_tails_incomparable.
Qed.

(** No file is collected twice: when the entries of the directory are
    distinct and distinct entries have distinct paths, the collected paths
    are distinct, in whatever order the set of wildcards is iterated.  So
    one run of the script rewrites no file twice. *)
Theorem svg_file_paths_NoDup joined listing wildcards :
  Inj (=) (=) joined → NoDup listing → wildcards ≡ₚ svg_file_wildcards →
  NoDup (svg_file_paths joined listing wildcards).
Proof.
  intros Hinj Hlisting Hperm. unfold svg_file_paths. apply NoDup_bind.
  - intros w1 w2 path Hw1 Hw2 Hp1 Hp2. rewrite Hperm in Hw1, Hw2.
    unfold glob in *. apply list_elem_of_fmap in Hp1 as (n1 & -> & Hn1).
    apply list_elem_of_fmap in Hp2 as (n2 & Heq & Hn2). apply Hinj in Heq as <-.
    apply list_elem_of_filter in Hn1 as [Hm1 _].
    apply list_elem_of_filter in Hn2 as [Hm2 _].
    unfold glob_matches in *.
    apply andb_true_iff in Hm1 as [_ Hm1]. apply andb_true_iff in Hm2 as [_ Hm2].
    by eapply wildcards_disjoint.
  - intros w _. unfold glob. apply NoDup_fmap_2; [done|]. by apply NoDup_filter.
  - rewrite Hperm. unfold svg_file_wildcards.
    apply (bool_decide_unpack _). by vm_compute.
Qed.

Global Instance html_joined_inj : Inj (=) (=) (λ name, "html/" +:+ name).
Proof. intros n1 n2 H. by injection H. Qed.

Lemma svg_file_paths_NoDup_witness :
  NoDup (svg_file_paths (λ name, "html/" +:+ name)
           ["a__coll__graph.svg"; "index.html"; "graph_legend.svg"; "b_dep.svg"]
           (reverse svg_file_wildcards)).
Proof.
  apply svg_file_paths_NoDup.
  - apply html_joined_inj.
  - apply (bool_decide_unpack _). by vm_compute.
  - apply reverse_Permutation.
Defined.

(** ** The whole script *)

(** The module body after the definitions: collect the paths, then loop. *)
Definition main (lib : bs4) (joined : string → string) (listing : list string)
    (wildcards : list string) (w : world) : outcome :=
  main_loop lib (svg_file_paths joined listing wildcards) w.

Lemma elem_of_svg_file_paths joined listing wildcards path :
  path ∈ svg_file_paths joined listing wildcards ↔
  ∃ wildcard name, wildcard ∈ wildcards ∧ name ∈ listing
                   ∧ glob_matches wildcard name = true ∧ path = joined name.
Proof.
  unfold svg_file_paths, glob. rewrite list_elem_of_bind. split.
  - intros (wc & (name & -> & [Hm Hn]%list_elem_of_filter)%list_elem_of_fmap & Hwc).
    by exists wc, name.
  - intros (wc & name & Hwc & Hn & Hm & ->). exists wc. split; [|done].
    apply list_elem_of_fmap. exists name. split; [done|]. by apply list_elem_of_filter.
Qed.

Definition org_tail : list Ascii.ascii := String.list_ascii_of_string "_org.svg".

Lemma org_not_matched wildcard name :
  wildcard ∈ svg_file_wildcards →
  org_tail `suffix_of` String.list_ascii_of_string name →
  fnmatch name wildcard = false.
Proof.
  intros Hwc Horg. destruct (fnmatch name wildcard) eqn:E; [|done]. exfalso.
  apply fnmatch_tail in E; [|by apply wildcard_tail_literal].
  assert (forallb (λ w,
            negb (bool_decide (wildcard_tail w `suffix_of` org_tail))
            && negb (bool_decide (org_tail `suffix_of` wildcard_tail w)))
            svg_file_wildcards = true) as H by (vm_compute; reflexivity).
  rewrite forallb_forall in H. apply list_elem_of_In, H in Hwc.
  apply andb_true_iff in Hwc as [H1 H2].
  apply negb_true_iff, bool_decide_eq_false in H1.
  apply negb_true_iff, bool_decide_eq_false in H2.
  destruct (suffixes_comparable _ _ _ E Horg); done.
Qed.

(** The originals are safe: a file whose name ends in [_org.svg] (the
    wildcards for them are commented out in the script) is matched by no
    wildcard, and the script leaves its content as it is, whether the run
    completes or raises. *)
Theorem main_leaves_originals lib joined listing wildcards w name :
  Inj (=) (=) joined → wildcards ≡ₚ svg_file_wildcards →
  org_tail `suffix_of` String.list_ascii_of_string name →
  files (world_of (main lib joined listing wildcards w)) !! joined name
  = files w !! joined name.
Proof.
  intros Hinj Hperm Horg. unfold main. apply main_loop_frame.
  intros (wc & name' & Hwc & _ & Hm & Heq)%elem_of_svg_file_paths.
  apply Hinj in Heq as <-. rewrite Hperm in Hwc.
  unfold glob_matches in Hm. apply andb_true_iff in Hm as [_ Hm].
  by rewrite org_not_matched in Hm.
Qed.

Definition sample_world_3 : world :=
  World rose_pine {["html/a__coll__graph.svg" := "<svg/>";
                    "html/a__coll__graph_org.svg" := "<svg/>"]}.

Lemma main_leaves_originals_witness :
  files (world_of (main sample_lib (λ name, "html/" +:+ name)
                     ["a__coll__graph.svg"; "a__coll__graph_org.svg"]
                     svg_file_wildcards sample_world_3))
    !! ("html/" +:+ "a__coll__graph_org.svg")
  = files sample_world_3 !! ("html/" +:+ "a__coll__graph_org.svg").
Proof.
  apply (main_leaves_originals sample_lib (λ name, "html/" +:+ name)).
  - apply html_joined_inj.
  - done.
  - by exists (String.list_ascii_of_string "a__coll__graph").
Defined.

(** * The style sheet replacement *)

(** ** Occurrences in the result of [str.replace] *)

(** [p in s] *)
Fixpoint occurs (p s : string) : bool :=
  is_prefix p s
  || match s with
     | EmptyString => false
     | String _ s' => occurs p s'
     end.

Fixpoint sdrop (k : nat) (s : string) : string :=
  match k, s with
  | S k', String _ s' => sdrop k' s'
  | _, _ => s
  end.

(** Neither string is a prefix of the other: they differ at a position
    that both have. *)
Definition clash (q n : string) : bool := negb (is_prefix q n) && negb (is_prefix n q).

(** [q] clashes with every nonempty suffix of [n]: no occurrence of [q]
    starts inside [n], whatever follows [n]. *)
Fixpoint clash_inside (q n : string) : bool :=
  match n with
  | EmptyString => true
  | String _ n' => clash q n && clash_inside q n'
  end.

(** Every nonempty suffix of [q] clashes with [n]: no occurrence of [q]
    that has started goes on into [n]. *)
Fixpoint clash_into (q n : string) : bool :=
  match q with
  | EmptyString => true
  | String _ q' => clash q n && clash_into q' n
  end.

Lemma append_cons c (s t : string) : String c s +:+ t = String c (s +:+ t).
Proof. done. Qed.

Lemma append_nil (t : string) : "" +:+ t = t.
Proof. done. Qed.

Lemma is_prefix_nil_r q : is_prefix q "" = true → q = "".
Proof. by destruct q. Qed.

Lemma is_prefix_cons a q b s :
  is_prefix (String a q) (String b s) = bool_decide (a = b) && is_prefix q s.
Proof. done. Qed.

Lemma clash_append q n x : clash q n = true → is_prefix q (n +:+ x) = false.
Proof.
  unfold clash. revert n. induction q as [|a q IH]; intros n; [done|].
  destruct n as [|b n]; [by rewrite andb_false_r|].
  rewrite append_cons, !is_prefix_cons.
  destruct (decide (a = b)) as [->|Hne].
  - rewrite !bool_decide_eq_true_2 by done. cbn [andb]. apply IH.
  - by rewrite (bool_decide_eq_false_2 (a = b)).
Qed.

Lemma occurs_append_inside q n x :
  clash_inside q n = true → occurs q (n +:+ x) = occurs q x.
Proof.
  induction n as [|b n IH]; [done|]. cbn [clash_inside].
  intros [Hc Hn]%andb_true_iff. rewrite append_cons. cbn [occurs].
  rewrite <- append_cons, clash_append by done. by rewrite IH.
Qed.

Lemma sdrop_0 s : sdrop 0 s = s.
Proof. by destruct s. Qed.

Lemma sdrop_nil k : sdrop k "" = "".
Proof. by destruct k. Qed.

(** A prefix of the result that clashes with [new] all along is a prefix of
    what was left of the input. *)
Lemma is_prefix_replace_from old new q k s :
  clash_into q new = true →
  is_prefix q (replace_from old new k s) = true → is_prefix q (sdrop k s) = true.
Proof.
  revert q k. induction s as [|c s IH]; intros q k Hq.
  - rewrite sdrop_nil. by destruct k.
  - destruct k as [|k]; cbn [replace_from sdrop]; [|by apply IH].
    destruct q as [|a q]; [done|]. cbn [clash_into] in Hq.
    apply andb_true_iff in Hq as [Hc Hq].
    destruct (is_prefix old (String c s)).
    + by rewrite clash_append.
    + rewrite !is_prefix_cons. intros [Ha H]%andb_true_iff. rewrite Ha. cbn [andb].
      by apply (IH q 0).
Qed.

Lemma tail_clash_into a q n : clash_into (String a q) n = true → clash_into q n = true.
Proof. cbn [clash_into]. by intros [_ ?]%andb_true_iff. Qed.

(** [q] does not occur in the result, when every occurrence of [q] in what
    is left of the input is an occurrence of [old] (which is replaced), and
    [q] clashes with [new]. *)
Lemma occurs_replace_from old new a q k s :
  clash_inside (String a q) new = true → clash_into q new = true →
  (∀ j, is_prefix (String a q) (sdrop (k + j) s) = true →
        is_prefix old (sdrop (k + j) s) = true) →
  occurs (String a q) (replace_from old new k s) = false.
Proof.
  intros Hin Hinto. revert k. induction s as [|c s IH]; intros k H.
  - by destruct k.
  - destruct k as [|k]; cbn [replace_from].
    + destruct (is_prefix old (String c s)) eqn:E.
      * rewrite occurs_append_inside by done. apply IH. intros j.
        specialize (H (S (String.length old - 1 + j))). cbn [sdrop Nat.add] in H. done.
      * cbn [occurs]. rewrite (IH 0).
        -- rewrite orb_false_r. apply not_true_is_false. intros Ep.
           rewrite is_prefix_cons in Ep. apply andb_true_iff in Ep as [Ha Ep].
           apply (is_prefix_replace_from old new q 0) in Ep; [|done].
           rewrite sdrop_0 in Ep. specialize (H 0). cbn [sdrop Nat.add] in H.
           rewrite is_prefix_cons, Ha, Ep in H. rewrite H in E; done.
        -- intros j. specialize (H (S j)). cbn [sdrop Nat.add] in H. done.
    + apply IH. intros j. specialize (H j). cbn [sdrop Nat.add] in H. done.
Qed.

Lemma occurs_sdrop q s j : occurs q s = false → is_prefix q (sdrop j s) = false.
Proof.
  revert j. induction s as [|c s IH]; intros j; cbn [occurs].
  - rewrite sdrop_nil. by intros [Hp _]%orb_false_iff.
  - intros [Hp Ho]%orb_false_iff. destruct j as [|j]; [done|]. cbn [sdrop]. by apply IH.
Qed.

(** Replacing a string that does not occur changes nothing. *)
Lemma replace_from_absent old new s :
  occurs old s = false → replace_from old new 0 s = s.
Proof.
  induction s as [|c s IH]; [done|]. cbn [occurs replace_from].
  intros [Hp Ho]%orb_false_iff. rewrite Hp. f_equal. by apply IH.
Qed.

(** The text that the script puts in the place of the text [t] of a style
    sheet, with the colour of the role "text". *)
Definition css (t : string) : string :=
  str_replace (str_replace t "stroke: red" "stroke: #e0def4")
    "fill: red" "fill: #e0def4".

Lemma css_occurs t :
  occurs "stroke: red" (css t) = false ∧ occurs "fill: red" (css t) = false.
Proof.
  unfold css, str_replace.
  set (t1 := replace_from "stroke: red" "stroke: #e0def4" 0 t).
  split.
  - apply occurs_replace_from; [reflexivity..|]. intros j Hj.
    rewrite occurs_sdrop in Hj; [done|].
    apply occurs_replace_from; [reflexivity..|]. done.
  - apply occurs_replace_from; [reflexivity..|]. done.
Qed.

Lemma css_idem t : css (css t) = css t.
Proof.
  destruct (css_occurs t) as [H1 H2]. unfold css at 1. unfold str_replace.
  rewrite (replace_from_absent "stroke: red") by done.
  by rewrite (replace_from_absent "fill: red").
Qed.

(** After the replacement of line 99 the style sheet contains neither
    "stroke: red" nor "fill: red" (the second replacement brings back no
    occurrence that the first one removed), and replacing again changes
    nothing. *)
Theorem css_leaves_no_red t :
  occurs "stroke: red" (css t) = false
  ∧ occurs "fill: red" (css t) = false
  ∧ css (css t) = css t.
Proof.
  destruct (css_occurs t) as [H1 H2]. split; [done|]. split; [done|]. apply css_idem.
Qed.

Example css_sample :
  css "a { stroke: red; fill: red; } b { fill: redder }"
  = "a { stroke: #e0def4; fill: #e0def4; } b { fill: #e0def4der }".
Proof. reflexivity. Qed.

(** ** The style sheets after the rule *)




















Definition sel_style : selector := Sel (Some "style") [("type", "text/css")].


(** ** The texts of the tree *)







Definition rules_after_style_sheets : list rule :=
  [rule_navigator; rule_buttons; rule_arrow_out].


Lemma no_rule_writes_type r :
  r ∈ catalogue → Forall (λ k, k ∉ (fst <$> sel_attrs sel_style)) (written_keys r).
Proof.
  intros Hr.
  assert (bool_decide (Forall (λ r,
    Forall (λ k, k ∉ (fst <$> sel_attrs sel_style)) (written_keys r)) catalogue)
    = true) as H by by vm_compute.
  apply bool_decide_eq_true in H. rewrite Forall_forall in H. by apply H.
Qed.



(** ** The strings outside the style sheets *)

Definition retext_style_only (r : rule) : Prop :=
  match r with
  | Assign _ _ _ _ _ => True
  | Retext sel _ => sel = sel_style
  end.

Lemma catalogue_retext_style_only r : r ∈ catalogue → retext_style_only r.
Proof.
  intros Hr. assert (Forall retext_style_only catalogue) as H.
  { unfold catalogue, rules_arrows, arrow_rules. cbn [app]. repeat constructor. }
  rewrite Forall_forall in H. by apply H.
Qed.

Lemma step_keeps_string g r d d' p s :
  retext_style_only r → step g r d d' →
  subtree p d = Some (NavigableString s) →
  (∀ e q, p = e ++ q → matches_at sel_style e d = false) →
  subtree p d' = Some (NavigableString s).
Proof.
  intros Hr Hs Hp Hout.
  inversion Hs as [q ws kvs ? Hws Hv|sel subst e q t ? s0 Heq Hm Hq Hsub]; subst.
  - unfold set_attrs. rewrite subtree_update by apply on_attrs_keeps_contents.
    rewrite Hp. by destruct (below p q) as [[|i r']|].
  - cbn [retext_style_only] in Hr. subst sel.
    rewrite subtree_update by by eapply replace_string_keeps_contents.
    rewrite Hp. destruct (below p (e ++ q)) as [[|i r']|] eqn:Hb; [|done..].
    apply below_nil in Hb. by rewrite (Hout e q Hb) in Hm.
Qed.

Lemma any_steps_keep_string rs d d' p s :
  (∀ r, r ∈ rs → r ∈ catalogue) →
  rtc (any_step rose_pine rs) d d' →
  subtree p d = Some (NavigableString s) →
  (∀ e q, p = e ++ q → matches_at sel_style e d = false) →
  subtree p d' = Some (NavigableString s).
Proof.
  intros Hrs. induction 1 as [|d1 d2 d3 (r & Hr & Hs) _ IH]; [done|].
  intros Hp Hout. apply IH.
  - eapply step_keeps_string; [|exact Hs|exact Hp|exact Hout].
    by apply catalogue_retext_style_only, Hrs.
  - intros e q Heq. erewrite step_keeps_match; [by eapply Hout| |exact Hs].
    by apply no_rule_writes_type, Hrs.
Qed.

(** The transformation changes no text outside the style sheets: a string
    that is not below a style element of type text/css is in the output what
    it is in the input. *)
Theorem recolor_keeps_other_strings d st' p s :
  recolor (State rose_pine d) = Ok tt st' →
  subtree p d = Some (NavigableString s) →
  (∀ e q, p = e ++ q → matches_at sel_style e d = false) →
  subtree p (soup st') = Some (NavigableString s).
Proof.
  intros Hrun. apply recolor_steps in Hrun as [_ Hsteps].
  by eapply any_steps_keep_string.
Qed.

Lemma recolor_keeps_other_strings_witness :
  subtree [0; 1; 0] (soup (State rose_pine (recolored sample_css)))
  = Some (NavigableString "Node").
Proof.
  apply (recolor_keeps_other_strings sample_css (State rose_pine (recolored sample_css))).
  - vm_compute. reflexivity.
  - reflexivity.
  - intros [|i [|j [|k [|l e]]]] q Heq; simplify_eq/=; reflexivity.
Defined.

(** ** What [find_all] and [find] return while the rules run *)

Lemma descend_alter s (F : node → list ref) (g : node → node) i j cs :
  (∀ c, cs !! i = Some c → matches s (g c) = matches s c ∧ F (g c) = F c) →
  descend s F j (alter g i cs) = descend s F j cs.
Proof.
  revert i j. induction cs as [|c cs IH]; intros i j H; [done|].
  destruct i as [|i].
  - destruct (H c eq_refl) as [Hm HF].
    change (descend s F j (g c :: cs) = descend s F j (c :: cs)).
    cbn [descend]. by rewrite Hm, HF.
  - change (descend s F j (c :: alter g i cs) = descend s F j (c :: cs)).
    cbn [descend]. rewrite IH; [done|]. intros c' Hc'. by apply H.
Qed.

Lemma matches_update_cons s i r f n : matches s (update (i :: r) f n) = matches s n.
Proof. by destruct n. Qed.

Lemma find_all_below_update s p f n :
  (∀ m, subtree p n = Some m →
        matches s (f m) = matches s m ∧ find_all_below s (f m) = find_all_below s m) →
  find_all_below s (update p f n) = find_all_below s n.
Proof.
  revert n. induction p as [|i p IH]; intros n H.
  - by apply H.
  - destruct n as [nm a cs|t]; [|done].
    change (descend s (find_all_below s) 0 (alter (update p f) i cs)
            = descend s (find_all_below s) 0 cs).
    apply descend_alter. intros c Hc.
    assert (∀ m, subtree p c = Some m →
      matches s (f m) = matches s m ∧ find_all_below s (f m) = find_all_below s m) as Hp.
    { intros m Hm. apply H. cbn [subtree]. rewrite Hc. exact Hm. }
    split; [|by apply IH].
    destruct p as [|k p]; [by apply Hp|apply matches_update_cons].
Qed.

(** A mutation that changes neither whether its node matches nor what is
    found below its node changes no result of [find_all]. *)
Lemma find_all_at_update e s p f d :
  keeps_contents f p d →
  (∀ m, subtree p d = Some m →
        matches s (f m) = matches s m ∧ find_all_below s (f m) = find_all_below s m) →
  find_all_at e s (update p f d) = find_all_at e s d.
Proof.
  intros Hk H. unfold find_all_at. rewrite subtree_update by done.
  destruct (below e p) as [r|] eqn:Hb; [|done].
  destruct (subtree e d) as [n|] eqn:He; [|done].
  cbn [fmap option_fmap option_map]. f_equal. apply find_all_below_update.
  intros m Hm. apply H. apply below_Some in Hb as ->.
  rewrite subtree_app, He. exact Hm.
Qed.

Lemma step_keeps_find_all g r sel e d d' :
  Forall (λ k, k ∉ (fst <$> sel_attrs sel)) (written_keys r) →
  step g r d d' → find_all_at e sel d' = find_all_at e sel d.
Proof.
  intros Hsafe Hs.
  inversion Hs as [q ws kvs ? Hws Hv|? ? ? ? ? ? s0 ? ? ? Hsub]; subst.
  - apply find_all_at_update; [apply on_attrs_keeps_contents|].
    intros [nm a cs|t] _; [|done]. split; [|done].
    apply matches_label_ext. intros k Hk. apply lookup_inserts_ne.
    rewrite (values_in_keys _ _ _ Hv). intros Hin.
    rewrite Forall_forall in Hsafe. eapply Hsafe; [|done].
    apply list_elem_of_bind. eauto.
  - apply find_all_at_update; [by eapply replace_string_keeps_contents|].
    intros m Hm. rewrite Hsub in Hm. by injection Hm as <-.
Qed.

Lemma any_steps_keep_find_all g rs sel e d d' :
  (∀ r, r ∈ rs → Forall (λ k, k ∉ (fst <$> sel_attrs sel)) (written_keys r)) →
  rtc (any_step g rs) d d' → find_all_at e sel d' = find_all_at e sel d.
Proof.
  intros Hsafe. induction 1 as [|d1 d2 d3 (r & Hr & Hs) _ IH]; [done|].
  rewrite IH. eapply step_keeps_find_all; eauto.
Qed.

(** ** The arrow that leaves the navigator *)

Definition sel_rect : selector := Sel (Some "rect") [].
Definition sel_path : selector := Sel (Some "path") [].

Lemma no_rule_writes_id' sel r :
  fst <$> sel_attrs sel = ["id"] →
  r ∈ catalogue → Forall (λ k, k ∉ (fst <$> sel_attrs sel)) (written_keys r).
Proof. intros ->. apply no_rule_writes_id. Qed.

Lemma by_name_only sel (ks : list string) :
  sel_attrs sel = [] → Forall (λ k, k ∉ (fst <$> sel_attrs sel)) ks.
Proof. intros ->. apply Forall_forall. intros k _. apply not_elem_of_nil. Qed.

Lemma find_all_at_label e sel d p :
  p ∈ find_all_at e sel d →
  ∃ nm a, label p d = Some (nm, a) ∧ matches_label sel nm a = true.
Proof.
  intros (r & _ & _ & Hm)%elem_of_find_all_at. unfold matches_at in Hm.
  destruct (label p d) as [[nm a]|]; [|done]. by exists nm, a.
Qed.

Lemma matches_label_name sel x nm a :
  sel_name sel = Some x → matches_label sel nm a = true → nm = x.
Proof.
  intros Hx Hm. destruct (decide (nm = x)) as [|Hne]; [assumption|].
  rewrite (matches_label_other_name sel x nm a Hx Hne) in Hm. discriminate.
Qed.

(** A nested assignment that completes has found its tag and has assigned
    the attributes to it. *)
Lemma run_nested_Ok e n st st' :
  n.2 ≠ [] → run_nested e n st = Ok tt st' →
  ∃ c kvs, head (find_all_at e n.1 (soup st)) = Some c
           ∧ values_in (globals_rose_pine st) n.2 = Some kvs
           ∧ st' = State (globals_rose_pine st) (update c (set_attrs kvs) (soup st)).
Proof.
  intros Hn. rewrite run_nested_unfold.
  destruct (head (find_all_at e n.1 (soup st))) as [c|].
  - rewrite for_each_assign_Some.
    destruct (values_in (globals_rose_pine st) n.2) as [kvs|]; [|intros [=]].
    intros [= <-]. by exists c, kvs.
  - rewrite for_each_assign_None. destruct n.2 as [|kv ws]; [by destruct Hn|].
    destruct (value_in _ _); intros [=].
Qed.

Lemma values_in_arrow_out_rect :
  values_in rose_pine [("fill", Pal "pine"); ("stroke", Lit "none")]
  = Some [("fill", "#31748f"); ("stroke", "none")].
Proof. vm_compute. reflexivity. Qed.

Lemma values_in_arrow_out_path :
  values_in rose_pine [("style", Fmt "fill:" "text")] = Some [("style", "fill:#e0def4")].
Proof. vm_compute. reflexivity. Qed.

(** When the transformation completes on a document with a group
    [arrow_out], the first such group has a rect and a path below it; the
    first rect ends with the fill of the role "pine" and the stroke "none",
    the first path with the style "fill:" followed by the colour of the
    role "text". *)
Theorem arrow_out_recoloured d st' g :
  recolor (State rose_pine d) = Ok tt st' →
  head (find_all_at [] sel_arrow_out d) = Some g →
  ∃ rect path a_r a_p,
    head (find_all_at g sel_rect d) = Some rect
    ∧ head (find_all_at g sel_path d) = Some path
    ∧ label rect (soup st') = Some ("rect", a_r)
    ∧ a_r !! "fill" = Some "#31748f" ∧ a_r !! "stroke" = Some "none"
    ∧ label path (soup st') = Some ("path", a_p)
    ∧ a_p !! "style" = Some "fill:#e0def4".
Proof.
  intros Hrun Hg.
  rewrite recolor_catalogue, catalogue_before_arrow_out, run_rules_app, bind_unfold in Hrun.
  destruct (run_rules rules_before_arrow_out (State rose_pine d)) as [[] s1|] eqn:E1;
    [|done].
  apply run_rules_steps in E1 as [Hg1 Hsteps]. cbn [globals_rose_pine soup] in *.
  rewrite run_rules_cons, bind_unfold in Hrun.
  destruct (run_rule rule_arrow_out s1) as [[] s2|] eqn:E2; [|done].
  injection Hrun as <-. destruct s1 as [g1 d1]. cbn [globals_rose_pine soup] in *.
  subst g1.
  assert (∀ r, r ∈ rules_before_arrow_out → r ∈ catalogue) as Hsub.
  { intros r Hr. rewrite catalogue_before_arrow_out. apply elem_of_app. by left. }
  assert (∀ e sel, fst <$> sel_attrs sel = ["id"] ∨ sel_attrs sel = [] →
            find_all_at e sel d1 = find_all_at e sel d) as Hfind.
  { intros e sel Hsel. eapply any_steps_keep_find_all; [|exact Hsteps].
    intros r Hr. destruct Hsel as [Hsel|Hsel].
    - by apply no_rule_writes_id', Hsub.
    - by apply by_name_only. }
  unfold run_rule, rule_arrow_out in E2. rewrite bind_unfold in E2.
  unfold find in E2. cbn [soup] in E2.
  change (Sel (Some "g") [("id", "arrow_out")]) with sel_arrow_out in E2.
  rewrite (Hfind [] sel_arrow_out (or_introl eq_refl)), Hg in E2.
  unfold run_body in E2. rewrite bind_unfold in E2.
  unfold mret, M_ret in E2. rewrite bind_unfold in E2. cbn [for_each] in E2.
  unfold mret, M_ret in E2.
  rewrite bind_unfold in E2.
  destruct (run_nested g _ (State rose_pine d1)) as [[] s3|] eqn:E3; [|discriminate E2].
  rewrite bind_unfold in E2.
  destruct (run_nested g _ s3) as [[] s4|] eqn:E4; [|discriminate E2].
  injection E2 as <-.
  apply run_nested_Ok in E3 as (rect & kr & Hrect & Hkr & ->); [|discriminate].
  cbn [fst snd globals_rose_pine soup] in Hrect, Hkr.
  rewrite values_in_arrow_out_rect in Hkr. injection Hkr as <-.
  apply run_nested_Ok in E4 as (path & kp & Hpath & Hkp & ->); [|discriminate].
  cbn [fst snd globals_rose_pine soup] in Hpath, Hkp.
  rewrite values_in_arrow_out_path in Hkp. injection Hkp as <-.
  cbn [soup].
  change (Sel (Some "rect") []) with sel_rect in Hrect.
  change (Sel (Some "path") []) with sel_path in Hpath.
  rewrite find_all_at_update in Hpath;
    [|apply on_attrs_keeps_contents|by intros [nm a cs|t] _].
  pose proof (head_Some_elem_of _ _ Hrect) as (nr & ar & Hlr & Hnr)%find_all_at_label.
  pose proof (head_Some_elem_of _ _ Hpath) as (np & ap & Hlp & Hnp)%find_all_at_label.
  apply matches_label_name with (x := "rect") in Hnr; [subst nr|reflexivity].
  apply matches_label_name with (x := "path") in Hnp; [subst np|reflexivity].
  assert (rect ≠ path) as Hne.
  { intros ->. rewrite Hlr in Hlp. discriminate Hlp. }
  rewrite (Hfind g sel_rect (or_intror eq_refl)) in Hrect.
  rewrite (Hfind g sel_path (or_intror eq_refl)) in Hpath.
  exists rect, path, (inserts [("fill", "#31748f"); ("stroke", "none")] ar),
    (inserts [("style", "fill:#e0def4")] ap).
  split; [exact Hrect|]. split; [exact Hpath|].
  unfold set_attrs, inserts. cbn [foldl fst snd].
  rewrite !label_update_attrs, Hlr, Hlp.
  rewrite (decide_False (P := rect = path)) by exact Hne.
  rewrite (decide_True (P := rect = rect)) by reflexivity.
  rewrite (decide_True (P := path = path)) by reflexivity.
  rewrite (decide_False (P := path = rect)) by (intros E; by apply Hne).
  cbn [fmap option_fmap option_map fst snd].
  split; [reflexivity|]. split.
  { rewrite lookup_insert_ne by discriminate. apply lookup_insert_eq. }
  split; [apply lookup_insert_eq|]. split; [reflexivity|apply lookup_insert_eq].
Qed.

(** A zoomable graph: the navigator with its rect and one button, and the
    group [arrow_out]. *)
Definition sample_navigator : node :=
  Tag "[document]" ∅ [Tag "svg" ∅ [
    Tag "g" {["id" := "navigator"]} [
      Tag "rect" {["fill" := "#f2f5e9"]} [];
      Tag "use" {["fill" := "#404040"]} [Tag "set" {["to" := "#808080"]} []]];
    Tag "g" {["id" := "arrow_out"]} [Tag "rect" ∅ []; Tag "path" ∅ []]]].

Lemma arrow_out_recoloured_witness :
  ∃ rect path a_r a_p,
    head (find_all_at [0; 1] sel_rect sample_navigator) = Some rect
    ∧ head (find_all_at [0; 1] sel_path sample_navigator) = Some path
    ∧ label rect (soup (State rose_pine (recolored sample_navigator))) = Some ("rect", a_r)
    ∧ a_r !! "fill" = Some "#31748f" ∧ a_r !! "stroke" = Some "none"
    ∧ label path (soup (State rose_pine (recolored sample_navigator))) = Some ("path", a_p)
    ∧ a_p !! "style" = Some "fill:#e0def4".
Proof.
  apply (arrow_out_recoloured sample_navigator
           (State rose_pine (recolored sample_navigator)) [0; 1]).
  - vm_compute. reflexivity.
  - vm_compute. reflexivity.
Defined.

(** ** The loops with a nested [find]: the navigator and its buttons *)

(** A property of one element of a loop: pending until the turn of the
    element, established by its turn, kept by the other turns. *)
Lemma for_each_turn {A} (Inv Pend Good : state → Prop) (xs : list A) (y : A)
    (body : A → M unit) st st' :
  (∀ x s s', Inv s → body x s = Ok tt s' → Inv s') →
  (∀ x s s', Inv s → Pend s → body x s = Ok tt s' → Pend s') →
  (∀ x s s', Inv s → Good s → body x s = Ok tt s' → Good s') →
  (∀ s s', Inv s → Pend s → body y s = Ok tt s' → Good s') →
  y ∈ xs → Inv st → Pend st → for_each xs body st = Ok tt st' →
  Inv st' ∧ Good st'.
Proof.
  intros HI HP HG HPG. revert st.
  assert (∀ xs st, Inv st → Good st → for_each xs body st = Ok tt st' →
            Inv st' ∧ Good st') as Hrest.
  { clear xs. intros xs. induction xs as [|x xs IH]; intros st Hi Hg.
    - intros [= <-]. by split.
    - rewrite for_each_cons. destruct (body x st) as [[] s1|] eqn:E; [|intros [=]].
      apply IH; [by eapply HI|by eapply HG]. }
  induction xs as [|x xs IH]; intros st Hy Hi Hp.
  - by apply elem_of_nil in Hy.
  - rewrite for_each_cons. destruct (body x st) as [[] s1|] eqn:E; [|intros [=]].
    apply elem_of_cons in Hy as [->|Hy].
    + apply Hrest; [by eapply HI|by eapply HPG].
    + apply IH; [exact Hy|by eapply HI|by eapply HP].
Qed.

(** A loop body with one nested [find] that completes: the assignments to
    the tag itself, then those to the first nested match. *)
Lemma run_body_one_nested own nsel nws e s s' kvs nkvs :
  values_in (globals_rose_pine s) own = Some kvs →
  values_in (globals_rose_pine s) nws = Some nkvs → nws ≠ [] →
  run_body None own [(nsel, nws)] e s = Ok tt s' →
  ∃ c, head (find_all_at e nsel (update e (set_attrs kvs) (soup s))) = Some c
       ∧ s' = State (globals_rose_pine s)
                (update c (set_attrs nkvs) (update e (set_attrs kvs) (soup s))).
Proof.
  intros Hown Hnws Hne. unfold run_body. rewrite bind_unfold.
  unfold mret at 1. unfold M_ret at 1. rewrite bind_unfold, for_each_assign_Some, Hown.
  rewrite for_each_cons.
  destruct (run_nested e (nsel, nws) _) as [[] s1|] eqn:E; [|intros [=]].
  intros [= <-].
  apply run_nested_Ok in E as (c & nkvs' & Hc & Hv & ->); [|exact Hne].
  cbn [fst snd globals_rose_pine soup] in *.
  rewrite Hnws in Hv. injection Hv as <-. by exists c.
Qed.

Lemma inserts_keep (Q : gmap string string → Prop) (chk : string * string → Prop) kvs a :
  (∀ a kv, chk kv → Q a → Q (<[kv.1 := kv.2]> a)) →
  Forall chk kvs → Q a → Q (inserts kvs a).
Proof.
  intros Hins Hkvs. revert a. unfold inserts.
  induction Hkvs as [|kv kvs Hkv _ IH]; intros a Ha; [exact Ha|].
  cbn [foldl]. apply IH. by apply Hins.
Qed.

(** A property of the attributes of a tag that every assignment of the
    rules [rs] keeps is kept while these rules run. *)
Lemma any_steps_keep_attrs (Q : gmap string string → Prop)
    (chk : string * string → Prop) rs c nm d d' :
  (∀ a kv, chk kv → Q a → Q (<[kv.1 := kv.2]> a)) →
  (∀ r ws kvs, r ∈ rs → ws ∈ write_lists r → values_in rose_pine ws = Some kvs →
               Forall chk kvs) →
  rtc (any_step rose_pine rs) d d' →
  (∃ a, label c d = Some (nm, a) ∧ Q a) → ∃ a', label c d' = Some (nm, a') ∧ Q a'.
Proof.
  intros Hins Hrs. induction 1 as [|d1 d2 d3 (r & Hr & Hs) _ IH]; [done|].
  intros (a & Hl & Ha). apply IH. clear IH.
  inversion Hs as [q ws kvs ? Hws Hv|? ? ? ? ? ? s0 ? ? ? Hsub]; subst.
  - rewrite set_attrs_inserts, label_update_attrs, Hl.
    destruct (decide (c = q)) as [_|_]; [|by exists a].
    exists (inserts kvs a). split; [reflexivity|].
    eapply inserts_keep; [exact Hins| |exact Ha]. by eapply Hrs.
  - exists a. split; [|exact Ha]. by erewrite label_update_string.
Qed.

Lemma any_steps_mono g rs rs' d d' :
  (∀ r, r ∈ rs → r ∈ rs') → rtc (any_step g rs) d d' → rtc (any_step g rs') d d'.
Proof.
  intros Hsub. apply rtc_subrel. intros d1 d2 (r & Hr & Hs). exists r. split; [|done].
  by apply Hsub.
Qed.

(** The attributes that rule 14 gives to the rect of a navigator, as the
    later rules leave them: rule 16 may give the same rect the fill of the
    role "pine". *)
Definition rect_done (a : gmap string string) : Prop :=
  a !! "fill-opacity" = Some "1.0" ∧ a !! "stroke" = Some "none"
  ∧ (a !! "fill" = Some "#26233a" ∨ a !! "fill" = Some "#31748f").

Definition keeps_rect_done (kv : string * string) : Prop :=
  (kv.1 = "fill-opacity" → kv.2 = "1.0") ∧ (kv.1 = "stroke" → kv.2 = "none")
  ∧ (kv.1 = "fill" → kv.2 = "#26233a" ∨ kv.2 = "#31748f").

Lemma rect_done_insert a kv :
  keeps_rect_done kv → rect_done a → rect_done (<[kv.1 := kv.2]> a).
Proof.
  destruct kv as [k v]. unfold keeps_rect_done, rect_done. cbn [fst snd].
  intros (H1 & H2 & H3) (A1 & A2 & A3). rewrite !lookup_insert.
  split; [|split].
  - case_decide as E; [by rewrite H1|exact A1].
  - case_decide as E; [by rewrite H2|exact A2].
  - case_decide as E; [|exact A3]. destruct (H3 E) as [->| ->]; [by left|by right].
Qed.

Lemma rules_after_keep_rect_done r ws kvs :
  r ∈ rules_after_style_sheets → ws ∈ write_lists r →
  values_in rose_pine ws = Some kvs → Forall keeps_rect_done kvs.
Proof.
  unfold rules_after_style_sheets. intros Hr Hws Hv.
  repeat (apply elem_of_cons in Hr as [->|Hr]); [| | |by apply elem_of_nil in Hr];
    cbn [write_lists rule_navigator rule_buttons rule_arrow_out fmap list_fmap snd] in Hws;
    repeat (apply elem_of_cons in Hws as [->|Hws]); try (by apply elem_of_nil in Hws);
    vm_compute in Hv; injection Hv as <-;
    repeat constructor; cbn [fst snd]; try discriminate; intros _; by auto.
Qed.

Lemma values_in_navigator_own :
  values_in rose_pine [("fill", Pal "pine")] = Some [("fill", "#31748f")].
Proof. vm_compute. reflexivity. Qed.

Lemma values_in_navigator_rect :
  values_in rose_pine
    [("fill", Pal "overlay"); ("fill-opacity", Lit "1.0"); ("stroke", Lit "none")]
  = Some [("fill", "#26233a"); ("fill-opacity", "1.0"); ("stroke", "none")].
Proof. vm_compute. reflexivity. Qed.

(** One turn of the loop of rule 14 that completes. *)
Lemma navigator_turn x s s' :
  globals_rose_pine s = rose_pine →
  run_body None [("fill", Pal "pine")]
    [(sel_navigator_rect,
      [("fill", Pal "overlay"); ("fill-opacity", Lit "1.0"); ("stroke", Lit "none")])]
    x s = Ok tt s' →
  ∃ c, c ∈ find_all_at x sel_navigator_rect
             (update x (set_attrs [("fill", "#31748f")]) (soup s))
       ∧ s' = State rose_pine
                (update c
                   (set_attrs [("fill", "#26233a"); ("fill-opacity", "1.0");
                               ("stroke", "none")])
                   (update x (set_attrs [("fill", "#31748f")]) (soup s))).
Proof.
  intros Hg Hrun.
  eapply run_body_one_nested in Hrun as (c & Hc & ->);
    [|rewrite Hg; apply values_in_navigator_own
     |rewrite Hg; apply values_in_navigator_rect|discriminate].
  exists c. split; [by apply head_Some_elem_of|]. by rewrite Hg.
Qed.

(** The label of a group after a turn of the loop of rule 14. *)
Lemma navigator_turn_label e x c a d :
  label e d = Some ("g", a) →
  c ∈ find_all_at x sel_navigator_rect (update x (set_attrs [("fill", "#31748f")]) d) →
  label e (update c
             (set_attrs [("fill", "#26233a"); ("fill-opacity", "1.0"); ("stroke", "none")])
             (update x (set_attrs [("fill", "#31748f")]) d))
  = Some ("g", if decide (e = x) then <["fill" := "#31748f"]> a else a).
Proof.
  intros Hl Hc. apply find_all_at_label in Hc as (nm & ac & Hlc & Hm).
  apply matches_label_name with (x := "rect") in Hm; [subst nm|reflexivity].
  assert (label e (update x (set_attrs [("fill", "#31748f")]) d)
          = Some ("g", if decide (e = x) then <["fill" := "#31748f"]> a else a)) as Hx.
  { rewrite set_attrs_inserts, label_update_attrs, Hl. by destruct (decide (e = x)). }
  rewrite set_attrs_inserts, label_update_attrs, decide_False; [exact Hx|].
  intros ->. rewrite Hx in Hlc. discriminate Hlc.
Qed.

Lemma matches_label_attr sel nm (a : gmap string string) k v :
  (k, v) ∈ sel_attrs sel → matches_label sel nm a = true → a !! k = Some v.
Proof.
  unfold matches_label. intros Hin [_ H]%andb_true_iff.
  rewrite forallb_forall in H. apply list_elem_of_In in Hin.
  apply H in Hin. by apply bool_decide_eq_true in Hin.
Qed.

(** When the transformation completes, every group with the id [navigator]
    has the fill of the role "pine", and a rect below it that had the fill
    #f2f5e9 in the input has the fill opacity 1.0, the stroke "none" and
    the fill of the role "overlay", or that of the role "pine" when it is
    also the rect of the group [arrow_out]. *)
Theorem navigator_recoloured d st' e :
  recolor (State rose_pine d) = Ok tt st' →
  e ∈ find_all_at [] sel_navigator d →
  ∃ a c a_c,
    label e (soup st') = Some ("g", a) ∧ a !! "fill" = Some "#31748f"
    ∧ c ∈ find_all_at e sel_navigator_rect d
    ∧ label c (soup st') = Some ("rect", a_c)
    ∧ a_c !! "fill-opacity" = Some "1.0" ∧ a_c !! "stroke" = Some "none"
    ∧ (a_c !! "fill" = Some "#26233a" ∨ a_c !! "fill" = Some "#31748f").
Proof.
  intros Hrun He.
  rewrite recolor_catalogue, catalogue_navigator, run_rules_app, bind_unfold in Hrun.
  destruct (run_rules rules_before_navigator (State rose_pine d)) as [[] s1|] eqn:E1;
    [|done].
  apply run_rules_steps in E1 as [Hg1 Hsteps1]. cbn [globals_rose_pine soup] in *.
  rewrite run_rules_cons, bind_unfold in Hrun.
  destruct (run_rule rule_navigator s1) as [[] s2|] eqn:E2; [|done].
  destruct s1 as [g1 d1]. cbn [globals_rose_pine soup] in *. subst g1.
  assert (∀ r, r ∈ rules_before_navigator → r ∈ catalogue) as Hsub1.
  { intros r Hr. rewrite catalogue_navigator. apply elem_of_app. by left. }
  assert (∀ r, r ∈ rules_after_style_sheets → r ∈ catalogue) as Hsub2.
  { intros r Hr. rewrite catalogue_navigator. apply elem_of_app. by right. }
  assert (rule_navigator ∈ catalogue) as Hnav.
  { apply Hsub2. apply elem_of_cons. by left. }
  set (Inv := λ s : state, globals_rose_pine s = rose_pine
                           ∧ rtc (any_step rose_pine catalogue) d (soup s)).
  set (Pend := λ s : state, ∃ a, label e (soup s) = Some ("g", a)
                                 ∧ a !! "id" = Some "navigator").
  set (Good := λ s : state,
    (∃ a, label e (soup s) = Some ("g", a) ∧ a !! "id" = Some "navigator"
          ∧ a !! "fill" = Some "#31748f")
    ∧ ∃ c, c ∈ find_all_at e sel_navigator_rect d
           ∧ ∃ a_c, label c (soup s) = Some ("rect", a_c) ∧ rect_done a_c).
  assert (Inv s2 ∧ Good s2) as [[Hg2 Hsteps2] [Hgroup Hrect]].
  { unfold run_rule, rule_navigator in E2. rewrite bind_unfold in E2.
    unfold find_all in E2. cbn [soup] in E2.
    change (Sel (Some "g") [("id", "navigator")]) with sel_navigator in E2.
    change (Sel (Some "rect") [("fill", "#f2f5e9")]) with sel_navigator_rect in E2.
    rewrite (any_steps_keep_find_all rose_pine rules_before_navigator sel_navigator
               [] d d1) in E2; [|intros r Hr; by apply no_rule_writes_id, Hsub1|exact Hsteps1].
    eapply (for_each_turn Inv Pend Good) in E2; [exact E2| | | | |exact He| |];
      subst Inv Pend Good; cbv beta.
    - intros x s s' [Hg Hs] Hb.
      eapply (run_body_steps _ false sel_navigator) in Hb as [Hg' Hs']; [|exact Hg].
      split; [exact Hg'|]. etrans; [exact Hs|].
      eapply any_steps_mono; [|by apply steps_any_step].
      intros r ->%list_elem_of_singleton. exact Hnav.
    - intros x s s' [Hg Hs] (a & Hl & Hid) Hb.
      apply navigator_turn in Hb as (c & Hc & ->); [|exact Hg]. cbn [soup].
      rewrite (navigator_turn_label e x c a _ Hl Hc). eexists. split; [reflexivity|].
      destruct (decide (e = x)); [|exact Hid].
      rewrite lookup_insert_ne by discriminate. exact Hid.
    - intros x s s' [Hg Hs] [(a & Hl & Hid & Hf) (c0 & Hc0 & Hdone)] Hb. split.
      + apply navigator_turn in Hb as (c & Hc & ->); [|exact Hg]. cbn [soup].
        rewrite (navigator_turn_label e x c a _ Hl Hc). eexists. split; [reflexivity|].
        destruct (decide (e = x)).
        * split; [|apply lookup_insert_eq].
          rewrite lookup_insert_ne by discriminate. exact Hid.
        * by split.
      + exists c0. split; [exact Hc0|].
        eapply (run_body_steps _ false sel_navigator) in Hb as [_ Hs']; [|exact Hg].
        eapply (any_steps_keep_attrs rect_done keeps_rect_done [rule_navigator]);
          [apply rect_done_insert| |by apply steps_any_step|exact Hdone].
        intros r ws kvs ->%list_elem_of_singleton. apply rules_after_keep_rect_done.
        apply elem_of_cons. by left.
    - intros s s' [Hg Hs] (a & Hl & Hid) Hb.
      apply navigator_turn in Hb as (c & Hc & ->); [|exact Hg]. cbn [soup]. split.
      + rewrite (navigator_turn_label e e c a _ Hl Hc), decide_True by reflexivity.
        eexists. split; [reflexivity|]. split; [|apply lookup_insert_eq].
        rewrite lookup_insert_ne by discriminate. exact Hid.
      + exists c. split.
        * apply elem_of_find_all_at in Hc as (r & -> & Hr & Hm).
          apply elem_of_find_all_at. exists r. split; [reflexivity|]. split; [exact Hr|].
          eapply (any_steps_no_new_match catalogue); [| |exact Hm].
          -- intros r' Hr'. apply (catalogue_safe r' rule_navigator); [exact Hr'|exact Hnav|].
             apply elem_of_cons. right. apply elem_of_cons. by left.
          -- etrans; [exact Hs|]. apply rtc_once. exists rule_navigator.
             split; [exact Hnav|]. eapply (step_set _ _ _ [("fill", Pal "pine")]).
             ++ apply elem_of_cons. by left.
             ++ apply values_in_navigator_own.
        * pose proof Hc as (nm & ac & Hlc & Hm)%find_all_at_label.
          apply matches_label_name with (x := "rect") in Hm; [subst nm|reflexivity].
          eexists. split.
          { rewrite set_attrs_inserts, label_update_attrs, decide_True, Hlc by reflexivity.
            reflexivity. }
          unfold rect_done, inserts. cbn [foldl fst snd].
          split; [|split; [|left]].
          -- rewrite lookup_insert_ne by discriminate. apply lookup_insert_eq.
          -- apply lookup_insert_eq.
          -- rewrite !lookup_insert_ne by discriminate. apply lookup_insert_eq.
    - split; [reflexivity|].
      eapply any_steps_mono; [exact Hsub1|exact Hsteps1].
    - rewrite <- (any_steps_keep_find_all rose_pine rules_before_navigator sel_navigator
                    [] d d1) in He;
        [|intros r Hr; by apply no_rule_writes_id, Hsub1|exact Hsteps1].
      apply find_all_at_label in He as (nm & a & Hl & Hm). cbn [soup].
      pose proof (matches_label_attr sel_navigator nm a "id" "navigator") as Hid.
      apply matches_label_name with (x := "g") in Hm as Hn; [subst nm|reflexivity].
      exists a. split; [exact Hl|]. apply Hid; [|exact Hm]. apply elem_of_cons. by left. }
  subst Inv Pend Good. cbv beta in *.
  destruct Hgroup as (a & Hl & Hid & Hf). destruct Hrect as (c & Hc & Hdone).
  pose proof Hrun as [_ Hsteps3]%run_rules_steps. rewrite Hg2 in Hsteps3.
  eapply (any_steps_keep_attrs rect_done keeps_rect_done) in Hdone as (a_c & Hlc & Hac);
    [|apply rect_done_insert| |exact Hsteps3].
  2: { intros r ws kvs Hr. apply rules_after_keep_rect_done.
       apply elem_of_cons. by right. }
  destruct Hac as (H1 & H2 & H3).
  exists a, c, a_c. split; [|by repeat split].
  eapply run_rules_frame; [exact Hrun|exact Hl|].
  repeat constructor; cbn [unselected rule_selectors fmap list_fmap fst];
    repeat constructor;
    try (eapply matches_label_other_name; [reflexivity|discriminate]).
  unfold matches_label. cbn [sel_name sel_attrs forallb fst snd]. rewrite Hid.
  reflexivity.
Qed.

Lemma navigator_recoloured_witness :
  ∃ a c a_c,
    label [0; 0] (soup (State rose_pine (recolored sample_navigator))) = Some ("g", a)
    ∧ a !! "fill" = Some "#31748f"
    ∧ c ∈ find_all_at [0; 0] sel_navigator_rect sample_navigator
    ∧ label c (soup (State rose_pine (recolored sample_navigator))) = Some ("rect", a_c)
    ∧ a_c !! "fill-opacity" = Some "1.0" ∧ a_c !! "stroke" = Some "none"
    ∧ (a_c !! "fill" = Some "#26233a" ∨ a_c !! "fill" = Some "#31748f").
Proof.
  apply (navigator_recoloured sample_navigator
           (State rose_pine (recolored sample_navigator)) [0; 0]).
  - vm_compute. reflexivity.
  - apply (bool_decide_unpack _). vm_compute. reflexivity.
Defined.

(** The second alternative for the fill is taken when the rect of the
    navigator is also the first rect of the group [arrow_out]. *)
Example navigator_rect_of_arrow_out :
  let d := Tag "[document]" ∅ [Tag "svg" ∅ [
             Tag "g" {["id" := "navigator"]} [
               Tag "g" {["id" := "arrow_out"]} [
                 Tag "rect" {["fill" := "#f2f5e9"]} []; Tag "path" ∅ []]]]] in
  (label [0; 0; 0; 0] (recolored d) ≫= λ l, l.2 !! "fill") = Some "#31748f"
  ∧ (label [0; 0; 0; 0] (recolored d) ≫= λ l, l.2 !! "fill-opacity") = Some "1.0".
Proof. vm_compute. split; reflexivity. Qed.

(** ** The buttons of the navigator *)

Definition sel_buttons : selector := Sel (Some "use") [("fill", "#404040")].
Definition sel_set : selector := Sel (Some "set") [].

Lemma simple_effects_keep (P : string * gmap string string → Prop) es l :
  Forall (λ e, ∀ l, P l → P (simple_effect e.1.1 e.1.2 e.2 l)) es →
  P l → P (simple_effects es l).
Proof.
  intros Hes. revert l. induction Hes as [|e es He _ IH]; intros l Hl; [exact Hl|].
  rewrite simple_effects_cons. apply IH. by apply He.
Qed.

(** The rules before the style sheets leave the fill #404040 of a use
    element alone. *)
Lemma simple_effects_use a :
  a !! "fill" = Some "#404040" →
  ∃ a', simple_effects effects_simple ("use", a) = ("use", a')
        ∧ a' !! "fill" = Some "#404040".
Proof.
  intros Hf.
  pose (P := λ l : string * gmap string string,
               l.1 = "use" ∧ l.2 !! "fill" = Some "#404040").
  assert (P (simple_effects effects_simple ("use", a))) as HP.
  { apply simple_effects_keep; [|by split]. clear a Hf. unfold effects_simple.
    repeat (apply Forall_cons; split;
      [intros [nm a] [Hn Hf]; cbn [fst snd] in *; subst nm; unfold simple_effect;
       cbn [fst snd];
       destruct (matches_label _ "use" a) eqn:Hm; [|by split];
       first
         [ eapply matches_label_name in Hm; [|reflexivity]; discriminate Hm
         | eapply (matches_label_attr _ _ _ "fill") in Hm;
             [|apply elem_of_cons; left; reflexivity];
             rewrite Hf in Hm; discriminate Hm
         | split; [reflexivity|]; unfold apply_own, inserts; cbn [foldl fst snd];
           rewrite lookup_insert_ne by discriminate; exact Hf ]
      |]).
    apply Forall_nil. exact I. }
  destruct (simple_effects effects_simple ("use", a)) as [nm a'].
  destruct HP as [Hn Hf']. cbn [fst snd] in *. subst nm. by exists a'.
Qed.

Lemma values_in_buttons_set :
  values_in rose_pine [("to", Pal "iris")] = Some [("to", "#c4a7e7")].
Proof. vm_compute. reflexivity. Qed.

(** One turn of the loop of rule 15 that completes. *)
Lemma buttons_turn x s s' :
  globals_rose_pine s = rose_pine →
  run_body None [("fill", Pal "pine")] [(sel_set, [("to", Pal "iris")])] x s = Ok tt s' →
  ∃ c, c ∈ find_all_at x sel_set (update x (set_attrs [("fill", "#31748f")]) (soup s))
       ∧ s' = State rose_pine
                (update c (set_attrs [("to", "#c4a7e7")])
                   (update x (set_attrs [("fill", "#31748f")]) (soup s))).
Proof.
  intros Hg Hrun.
  eapply run_body_one_nested in Hrun as (c & Hc & ->);
    [|rewrite Hg; apply values_in_navigator_own
     |rewrite Hg; apply values_in_buttons_set|discriminate].
  exists c. split; [by apply head_Some_elem_of|]. by rewrite Hg.
Qed.

Lemma buttons_turn_label e x c a d :
  label e d = Some ("use", a) →
  c ∈ find_all_at x sel_set (update x (set_attrs [("fill", "#31748f")]) d) →
  label e (update c (set_attrs [("to", "#c4a7e7")])
             (update x (set_attrs [("fill", "#31748f")]) d))
  = Some ("use", if decide (e = x) then <["fill" := "#31748f"]> a else a).
Proof.
  intros Hl Hc. apply find_all_at_label in Hc as (nm & ac & Hlc & Hm).
  apply matches_label_name with (x := "set") in Hm; [subst nm|reflexivity].
  assert (label e (update x (set_attrs [("fill", "#31748f")]) d)
          = Some ("use", if decide (e = x) then <["fill" := "#31748f"]> a else a)) as Hx.
  { rewrite set_attrs_inserts, label_update_attrs, Hl. by destruct (decide (e = x)). }
  rewrite set_attrs_inserts, label_update_attrs, decide_False; [exact Hx|].
  intros ->. rewrite Hx in Hlc. discriminate Hlc.
Qed.

Definition keeps_to (kv : string * string) : Prop := kv.1 = "to" → kv.2 = "#c4a7e7".

Lemma to_insert (a : gmap string string) kv :
  keeps_to kv → a !! "to" = Some "#c4a7e7" → <[kv.1 := kv.2]> a !! "to" = Some "#c4a7e7".
Proof.
  destruct kv as [k v]. unfold keeps_to. cbn [fst snd]. intros H Ha.
  rewrite lookup_insert. case_decide as E; [by rewrite H|exact Ha].
Qed.

Lemma rules_after_keep_to r ws kvs :
  r ∈ [rule_buttons; rule_arrow_out] → ws ∈ write_lists r →
  values_in rose_pine ws = Some kvs → Forall keeps_to kvs.
Proof.
  intros Hr Hws Hv.
  repeat (apply elem_of_cons in Hr as [->|Hr]); [| |by apply elem_of_nil in Hr];
    cbn [write_lists rule_buttons rule_arrow_out fmap list_fmap snd] in Hws;
    repeat (apply elem_of_cons in Hws as [->|Hws]); try (by apply elem_of_nil in Hws);
    vm_compute in Hv; injection Hv as <-;
    repeat constructor; unfold keeps_to; cbn [fst snd]; try discriminate; reflexivity.
Qed.

Definition rules_before_buttons : list rule :=
  rules_simple ++ [rule_style_sheets; rule_navigator].

Lemma catalogue_buttons :
  catalogue = rules_before_buttons ++ rule_buttons :: [rule_arrow_out].
Proof. reflexivity. Qed.

(** When the transformation completes, every use element that had the fill
    #404040 has the fill of the role "pine", and a set element below it has
    the colour of the role "iris" as its attribute [to]. *)
Theorem buttons_recoloured d st' e :
  recolor (State rose_pine d) = Ok tt st' →
  e ∈ find_all_at [] sel_buttons d →
  ∃ a c a_c,
    label e (soup st') = Some ("use", a) ∧ a !! "fill" = Some "#31748f"
    ∧ c ∈ find_all_at e sel_set d
    ∧ label c (soup st') = Some ("set", a_c) ∧ a_c !! "to" = Some "#c4a7e7".
Proof.
  intros Hrun He.
  rewrite recolor_catalogue, catalogue_buttons, run_rules_app, bind_unfold in Hrun.
  destruct (run_rules rules_before_buttons (State rose_pine d)) as [[] s3|] eqn:E1;
    [|done].
  pose proof E1 as [Hg3 Hsteps3]%run_rules_steps. cbn [globals_rose_pine soup] in *.
  rewrite run_rules_cons, bind_unfold in Hrun.
  destruct (run_rule rule_buttons s3) as [[] s4|] eqn:E2; [|done].
  assert (∀ r, r ∈ rules_before_buttons → r ∈ catalogue) as Hsub1.
  { intros r Hr. rewrite catalogue_buttons. apply elem_of_app. by left. }
  assert (∀ r, r ∈ [rule_buttons; rule_arrow_out] → r ∈ catalogue) as Hsub2.
  { intros r Hr. rewrite catalogue_buttons. apply elem_of_app. by right. }
  assert (rule_buttons ∈ catalogue) as Hbut.
  { apply Hsub2. apply elem_of_cons. by left. }
  (* the use element when the loop starts *)
  assert (∃ a3, label e (soup s3) = Some ("use", a3) ∧ a3 !! "fill" = Some "#404040")
    as (a3 & Hl3 & Hf3).
  { pose proof He as [Hne _]%elem_of_find_all_root.
    pose proof He as (nm & a & Hl & Hm)%find_all_at_label.
    pose proof (matches_label_attr sel_buttons nm a "fill" "#404040") as Hf.
    apply matches_label_name with (x := "use") in Hm as Hn; [subst nm|reflexivity].
    specialize (Hf ltac:(apply elem_of_cons; by left) Hm).
    destruct (simple_effects_use a Hf) as (a1 & Ha1 & Hf1).
    unfold rules_before_buttons in E1. rewrite run_rules_app, bind_unfold in E1.
    destruct (run_simple_rules rules_simple _ (State rose_pine d) rules_simple_effects)
      as (d1 & Hrun1 & _ & Hlab).
    rewrite Hrun1 in E1. cbn [globals_rose_pine soup] in *.
    exists a1. split; [|exact Hf1].
    eapply run_rules_frame; [exact E1| |].
    - cbn [soup]. rewrite Hlab, Hl by exact Hne. cbn [fmap option_fmap option_map].
      by rewrite Ha1.
    - repeat constructor; cbn [unselected rule_selectors fmap list_fmap fst];
        repeat constructor. }
  destruct s3 as [g3 d3]. cbn [globals_rose_pine soup] in *. subst g3.
  set (Inv := λ s : state, globals_rose_pine s = rose_pine
                           ∧ rtc (any_step rose_pine catalogue) d (soup s)).
  set (Pend := λ s : state, ∃ a, label e (soup s) = Some ("use", a)).
  set (Good := λ s : state,
    (∃ a, label e (soup s) = Some ("use", a) ∧ a !! "fill" = Some "#31748f")
    ∧ ∃ c, c ∈ find_all_at e sel_set d
           ∧ ∃ a_c, label c (soup s) = Some ("set", a_c) ∧ a_c !! "to" = Some "#c4a7e7").
  assert (Inv s4 ∧ Good s4) as [[Hg4 Hsteps4] [Huse Hset]].
  { unfold run_rule, rule_buttons in E2. rewrite bind_unfold in E2.
    unfold find_all in E2. cbn [soup] in E2.
    change (Sel (Some "use") [("fill", "#404040")]) with sel_buttons in E2.
    change (Sel (Some "set") []) with sel_set in E2.
    eapply (for_each_turn Inv Pend Good _ e) in E2; [exact E2| | | | | | |];
      subst Inv Pend Good; cbv beta.
    - intros x s s' [Hg Hs] Hb.
      eapply (run_body_steps _ false sel_buttons) in Hb as [Hg' Hs']; [|exact Hg].
      split; [exact Hg'|]. etrans; [exact Hs|].
      eapply any_steps_mono; [|by apply steps_any_step].
      intros r ->%list_elem_of_singleton. exact Hbut.
    - intros x s s' [Hg Hs] (a & Hl) Hb.
      apply buttons_turn in Hb as (c & Hc & ->); [|exact Hg]. cbn [soup].
      rewrite (buttons_turn_label e x c a _ Hl Hc). by eexists.
    - intros x s s' [Hg Hs] [(a & Hl & Hf) (c0 & Hc0 & Hdone)] Hb. split.
      + apply buttons_turn in Hb as (c & Hc & ->); [|exact Hg]. cbn [soup].
        rewrite (buttons_turn_label e x c a _ Hl Hc). eexists. split; [reflexivity|].
        destruct (decide (e = x)); [apply lookup_insert_eq|exact Hf].
      + exists c0. split; [exact Hc0|].
        eapply (run_body_steps _ false sel_buttons) in Hb as [_ Hs']; [|exact Hg].
        eapply (any_steps_keep_attrs (λ a, a !! "to" = Some "#c4a7e7") keeps_to
                  [rule_buttons]);
          [apply to_insert| |by apply steps_any_step|exact Hdone].
        intros r ws kvs ->%list_elem_of_singleton. apply rules_after_keep_to.
        apply elem_of_cons. by left.
    - intros s s' [Hg Hs] (a & Hl) Hb.
      apply buttons_turn in Hb as (c & Hc & ->); [|exact Hg]. cbn [soup]. split.
      + rewrite (buttons_turn_label e e c a _ Hl Hc), decide_True by reflexivity.
        eexists. split; [reflexivity|apply lookup_insert_eq].
      + exists c. split.
        * rewrite <- (any_steps_keep_find_all rose_pine catalogue sel_set e d
                        (update e (set_attrs [("fill", "#31748f")]) (soup s)));
            [exact Hc|intros r _; by apply by_name_only|].
          etrans; [exact Hs|]. apply rtc_once. exists rule_buttons.
          split; [exact Hbut|]. eapply (step_set _ _ _ [("fill", Pal "pine")]).
          -- apply elem_of_cons. by left.
          -- apply values_in_navigator_own.
        * pose proof Hc as (nm & ac & Hlc & Hm)%find_all_at_label.
          apply matches_label_name with (x := "set") in Hm; [subst nm|reflexivity].
          eexists. split.
          { rewrite set_attrs_inserts, label_update_attrs, decide_True, Hlc by reflexivity.
            reflexivity. }
          apply lookup_insert_eq.
    - apply elem_of_find_all_root. split; [by apply elem_of_find_all_root in He as [He _]|].
      unfold matches_at. cbn [soup]. rewrite Hl3. unfold matches_label.
      cbn [sel_name sel_buttons sel_attrs forallb fst snd]. rewrite Hf3. reflexivity.
    - split; [reflexivity|]. eapply any_steps_mono; [exact Hsub1|exact Hsteps3].
    - by exists a3. }
  subst Inv Pend Good. cbv beta in *.
  destruct Huse as (a & Hl & Hf). destruct Hset as (c & Hc & Hdone).
  pose proof Hrun as [_ Hsteps5]%run_rules_steps. rewrite Hg4 in Hsteps5.
  eapply (any_steps_keep_attrs (λ a, a !! "to" = Some "#c4a7e7") keeps_to)
    in Hdone as (a_c & Hlc & Hac); [|apply to_insert| |exact Hsteps5].
  2: { intros r ws kvs Hr. apply rules_after_keep_to. apply elem_of_cons. by right. }
  exists a, c, a_c. split; [|by repeat split].
  eapply run_rules_frame; [exact Hrun|exact Hl|].
  repeat constructor; cbn [unselected rule_selectors fmap list_fmap fst];
    repeat constructor.
Qed.

Lemma buttons_recoloured_witness :
  ∃ a c a_c,
    label [0; 0; 1] (soup (State rose_pine (recolored sample_navigator))) = Some ("use", a)
    ∧ a !! "fill" = Some "#31748f"
    ∧ c ∈ find_all_at [0; 0; 1] sel_set sample_navigator
    ∧ label c (soup (State rose_pine (recolored sample_navigator))) = Some ("set", a_c)
    ∧ a_c !! "to" = Some "#c4a7e7".
Proof.
  apply (buttons_recoloured sample_navigator
           (State rose_pine (recolored sample_navigator)) [0; 0; 1]).
  - vm_compute. reflexivity.
  - apply (bool_decide_unpack _). vm_compute. reflexivity.
Defined.

(** ** Documents without targets for the last four rules *)

Lemma no_match_after_steps rs r' sel d d' :
  (∀ r, r ∈ rs → r ∈ catalogue) → r' ∈ catalogue → sel ∈ rule_selectors r' →
  rtc (any_step rose_pine rs) d d' →
  find_all_at [] sel d = [] → find_all_at [] sel d' = [].
Proof.
  intros Hsub Hr' Hsel. apply any_steps_no_match.
  intros r Hr. by apply (catalogue_safe r r'); [apply Hsub|..].
Qed.

Lemma for_each_nil {A} (body : A → M unit) st : for_each [] body st = Ok tt st.
Proof. reflexivity. Qed.

(** Rules 1 to 12 never raise, and a selector without a match is no error:
    a document with no style sheet, no navigator, no button and no group
    [arrow_out] is always recoloured to the end. *)
Theorem recolor_completes_without_targets d :
  find_all_at [] sel_style d = [] → find_all_at [] sel_navigator d = [] →
  find_all_at [] sel_buttons d = [] → find_all_at [] sel_arrow_out d = [] →
  ∃ d', recolor (State rose_pine d) = Ok tt (State rose_pine d').
Proof.
  intros Hstyle Hnav Hbut Hout.
  destruct (run_simple_rules rules_simple _ (State rose_pine d) rules_simple_effects)
    as (d1 & Hrun & _ & _).
  pose proof Hrun as [_ Hsteps]%run_rules_steps. cbn [globals_rose_pine soup] in *.
  assert (∀ r, r ∈ rules_simple → r ∈ catalogue) as Hsub.
  { intros r Hr. rewrite catalogue_halves. apply elem_of_app. by left. }
  assert (∀ r, r ∈ rules_nested → r ∈ catalogue) as Hsub'.
  { intros r Hr. rewrite catalogue_halves. apply elem_of_app. by right. }
  exists d1.
  rewrite recolor_catalogue, catalogue_halves, run_rules_app, bind_unfold, Hrun.
  unfold rules_nested.
  rewrite run_rules_cons, bind_unfold. unfold run_rule at 1. unfold rule_style_sheets at 1.
  rewrite bind_unfold. unfold find_all at 1. cbn [soup].
  rewrite (no_match_after_steps rules_simple rule_style_sheets _ d d1 Hsub);
    [|apply Hsub'; set_solver|set_solver|exact Hsteps|exact Hstyle].
  rewrite for_each_nil. cbv beta iota.
  rewrite run_rules_cons, bind_unfold. unfold run_rule at 1. unfold rule_navigator at 1.
  rewrite bind_unfold. unfold find_all at 1. cbn [soup].
  rewrite (no_match_after_steps rules_simple rule_navigator _ d d1 Hsub);
    [|apply Hsub'; set_solver|set_solver|exact Hsteps|exact Hnav].
  rewrite for_each_nil. cbv beta iota.
  rewrite run_rules_cons, bind_unfold. unfold run_rule at 1. unfold rule_buttons at 1.
  rewrite bind_unfold. unfold find_all at 1. cbn [soup].
  rewrite (no_match_after_steps rules_simple rule_buttons _ d d1 Hsub);
    [|apply Hsub'; set_solver|set_solver|exact Hsteps|exact Hbut].
  rewrite for_each_nil. cbv beta iota.
  rewrite run_rules_cons, bind_unfold. unfold run_rule at 1. unfold rule_arrow_out at 1.
  rewrite bind_unfold. unfold find at 1. cbn [soup].
  rewrite (no_match_after_steps rules_simple rule_arrow_out _ d d1 Hsub);
    [|apply Hsub'; set_solver|set_solver|exact Hsteps|exact Hout].
  reflexivity.
Qed.

Lemma recolor_completes_without_targets_witness :
  ∃ d', recolor (State rose_pine sample_polygons) = Ok tt (State rose_pine d').
Proof.
  apply (recolor_completes_without_targets sample_polygons); vm_compute; reflexivity.
Defined.

(** ** What a completed run writes *)

Lemma rose_pine_ify_Done lib p w w' :
  module_rose_pine w = rose_pine → rose_pine_ify lib p w = Done w' →
  ∃ text d st,
    files w !! p = Some text ∧ parse lib text = Some d
    ∧ recolor (State rose_pine d) = Ok tt st
    ∧ w' = World rose_pine (<[p := prettify lib (soup st)]> (files w)).
Proof.
  intros Hg. unfold rose_pine_ify. rewrite Hg.
  destruct (files w !! p) as [text|] eqn:Ef; [|intros [=]].
  destruct (parse lib text) as [d|] eqn:Ed; [|intros [=]].
  destruct (recolor (State rose_pine d)) as [[] st|e] eqn:E; [|intros [=]].
  intros [= <-]. exists text, d, st.
  split; [reflexivity|]. split; [exact Ed|]. split; [exact E|].
  apply recolor_steps in E as [-> _]. reflexivity.
Qed.

(** When the loop completes over distinct paths, every file of the list has
    been read, parsed, recoloured and replaced by the prettified tree, and
    its new content is made from its own old content alone: the files
    rewritten before it have no influence on it. *)
Theorem main_loop_rewrites_each_file lib svg_file_paths w w' p :
  module_rose_pine w = rose_pine → NoDup svg_file_paths →
  main_loop lib svg_file_paths w = Done w' → p ∈ svg_file_paths →
  ∃ text d st,
    files w !! p = Some text ∧ parse lib text = Some d
    ∧ recolor (State rose_pine d) = Ok tt st
    ∧ files w' !! p = Some (prettify lib (soup st)).
Proof.
  intros Hg Hnd. revert w Hg.
  induction Hnd as [|q ps Hq Hnd IH]; intros w Hg Hrun Hp.
  - by apply elem_of_nil in Hp.
  - cbn [main_loop] in Hrun.
    destruct (rose_pine_ify lib q w) as [w1|e w1] eqn:E; [|discriminate Hrun].
    pose proof (rose_pine_ify_Done lib q w w1 Hg E) as (text & d & st & Hf & Hd & Hr & ->).
    apply elem_of_cons in Hp as [->|Hp].
    + exists text, d, st. split; [exact Hf|]. split; [exact Hd|]. split; [exact Hr|].
      pose proof (main_loop_frame lib ps
        (World rose_pine (<[q := prettify lib (soup st)]> (files w))) q Hq) as Hfr.
      rewrite Hrun in Hfr.
      cbn [world_of files] in Hfr. rewrite Hfr. apply lookup_insert_eq.
    + apply IH in Hrun as (text' & d' & st' & Hf' & Hd' & Hr' & Hw');
        [|reflexivity|exact Hp].
      exists text', d', st'. split; [|by repeat split].
      cbn [files] in Hf'. rewrite lookup_insert_ne in Hf'; [exact Hf'|].
      intros ->. by apply Hq.
Qed.

Lemma main_loop_rewrites_each_file_witness :
  ∃ text d st,
    files sample_world_2 !! "b_dep.svg" = Some text ∧ parse sample_lib text = Some d
    ∧ recolor (State rose_pine d) = Ok tt st
    ∧ files (world_of (main_loop sample_lib ["graph_legend.svg"; "b_dep.svg"]
                         sample_world_2)) !! "b_dep.svg"
      = Some (prettify sample_lib (soup st)).
Proof.
  apply (main_loop_rewrites_each_file sample_lib ["graph_legend.svg"; "b_dep.svg"]
           sample_world_2).
  - reflexivity.
  - apply (bool_decide_unpack _). vm_compute. reflexivity.
  - vm_compute. reflexivity.
  - apply (bool_decide_unpack _). vm_compute. reflexivity.
Defined.

(** ** The attributes that no rule assigns *)

Definition assigned_keys : list string :=
  ["fill"; "stroke"; "fill-opacity"; "style"; "to"].

Lemma written_keys_assigned r k :
  r ∈ catalogue → k ∈ written_keys r → k ∈ assigned_keys.
Proof.
  intros Hr.
  assert (bool_decide (Forall (λ r, Forall (λ k, k ∈ assigned_keys) (written_keys r))
                         catalogue) = true) as H by by vm_compute.
  apply bool_decide_eq_true in H. rewrite Forall_forall in H. specialize (H r Hr).
  rewrite Forall_forall in H. apply H.
Qed.

(** The transformation assigns to five attributes only: every other
    attribute of every tag (its id, its class, its geometry, ...) has in
    the output the value it has in the input, or is absent in both. *)
Theorem recolor_keeps_other_attributes d st' q nm a k :
  recolor (State rose_pine d) = Ok tt st' →
  label q d = Some (nm, a) → k ∉ assigned_keys →
  ∃ a', label q (soup st') = Some (nm, a') ∧ a' !! k = a !! k.
Proof.
  intros Hrun Hl Hk. apply recolor_steps in Hrun as [_ Hsteps].
  cbn [globals_rose_pine soup] in Hsteps.
  eapply (any_steps_keep_attrs (λ a', a' !! k = a !! k) (λ kv, kv.1 ≠ k));
    [| |exact Hsteps|by exists a].
  - intros a' kv Hne Ha'. cbv beta in *. rewrite lookup_insert_ne; [exact Ha'|exact Hne].
  - intros r ws kvs Hr Hws Hv. apply Forall_forall. intros kv Hkv Heq. cbv beta in Heq.
    subst k.
    apply Hk. apply (written_keys_assigned r); [exact Hr|].
    apply list_elem_of_bind. exists ws. split; [|exact Hws].
    rewrite <- (values_in_keys _ _ _ Hv). apply list_elem_of_fmap. by exists kv.
Qed.

Lemma recolor_keeps_other_attributes_witness :
  ∃ a', label [0; 0] (soup (State rose_pine (recolored sample_navigator)))
        = Some ("g", a')
      ∧ a' !! "id" = ({["id" := "navigator"]} : gmap string string) !! "id".
Proof.
  apply (recolor_keeps_other_attributes sample_navigator
           (State rose_pine (recolored sample_navigator)) [0; 0]).
  - vm_compute. reflexivity.
  - reflexivity.
  - apply (bool_decide_unpack _). vm_compute. reflexivity.
Defined.

(** ** The text elements (rules 6 and 7) *)

Lemma matches_text_grey (a : gmap string string) :
  matches_label (Sel (Some "text") [("fill", "grey")]) "text" a
  = bool_decide (a !! "fill" = Some "grey").
Proof.
  unfold matches_label. cbn [sel_name sel_attrs forallb fst snd].
  rewrite andb_true_r. reflexivity.
Qed.

Lemma apply_own_unless key kvs (a : gmap string string) :
  apply_own (Some key) kvs a
  = match a !! key with Some _ => a | None => inserts kvs a end.
Proof. unfold apply_own. by destruct (a !! key). Qed.

Lemma simple_effect_text_grey kvs (a : gmap string string) :
  simple_effect (Sel (Some "text") [("fill", "grey")]) None kvs ("text", a)
  = ("text", if bool_decide (a !! "fill" = Some "grey") then inserts kvs a else a).
Proof.
  unfold simple_effect. cbn [fst snd]. rewrite matches_text_grey.
  by destruct (bool_decide _).
Qed.

Lemma simple_effect_text_in_classes kvs (a : gmap string string) :
  simple_effect (Sel (Some "text") []) (Some "fill") kvs ("text", a)
  = ("text", match a !! "fill" with Some _ => a | None => inserts kvs a end).
Proof.
  unfold simple_effect. cbn [fst snd].
  change (matches_label (Sel (Some "text") []) "text" a) with true.
  cbv iota. by rewrite apply_own_unless.
Qed.

(** What rules 1 to 12 make of a text element. *)
Lemma text_effects (a : gmap string string) :
  ∃ a', simple_effects effects_simple ("text", a) = ("text", a')
        ∧ is_Some (a' !! "fill")
        ∧ (a !! "fill" = None → a' !! "fill" = Some "#26233a")
        ∧ (a !! "fill" = Some "grey" → a' !! "fill" = Some "#e0def4").
Proof.
  pose (Q := λ l : string * gmap string string,
    l.1 = "text" ∧ is_Some (l.2 !! "fill")
    ∧ (a !! "fill" = None → l.2 !! "fill" = Some "#26233a")
    ∧ (a !! "fill" = Some "grey" → l.2 !! "fill" = Some "#e0def4")).
  assert (Q (simple_effects effects_simple ("text", a))) as HQ.
  { unfold effects_simple.
    do 5 (rewrite effects_skip by reflexivity).
    do 2 rewrite simple_effects_cons. cbn [fst snd].
    apply simple_effects_keep.
    - unfold Q.
      repeat (apply Forall_cons; split;
        [intros [nm a1] (Hn & Hs & H1 & H2); cbn [fst snd] in *; subst nm;
         unfold simple_effect; cbn [fst snd];
         destruct (matches_label _ "text" a1) eqn:Hm;
           [|split; [reflexivity|split; [exact Hs|split; [exact H1|exact H2]]]];
         unfold apply_own, inserts; cbn [foldl fst snd];
         first
           [ eapply (matches_label_attr _ _ _ "fill") in Hm;
               [|apply elem_of_cons; left; reflexivity];
             split; [reflexivity|]; rewrite lookup_insert_eq;
             split; [by eexists|];
             split; [intros E; rewrite (H1 E) in Hm; discriminate Hm
                    |intros E; rewrite (H2 E) in Hm; discriminate Hm]
           | split; [reflexivity|]; rewrite lookup_insert_ne by discriminate;
             split; [exact Hs|split; [exact H1|exact H2]] ]
        |]).
      apply Forall_nil. exact I.
    - rewrite simple_effect_text_grey, simple_effect_text_in_classes.
      unfold Q, inserts. cbn [fst snd foldl].
      split; [reflexivity|].
      destruct (a !! "fill") as [f|] eqn:Hf.
      + destruct (decide (f = "grey")) as [->|Hne].
        * rewrite bool_decide_eq_true_2 by reflexivity. rewrite !lookup_insert_eq.
          split; [by eexists|]. split; [intros [=]|reflexivity].
        * rewrite bool_decide_eq_false_2 by (intros [= E]; by apply Hne).
          rewrite Hf. split; [by eexists|].
          split; [intros [=]|intros [= E]; by destruct Hne].
      + rewrite bool_decide_eq_false_2 by (intros [=]). rewrite Hf, lookup_insert_eq.
        split; [by eexists|]. split; [reflexivity|intros [=]]. }
  destruct (simple_effects effects_simple ("text", a)) as [nm a'].
  destruct HQ as (Hn & Hs & H1 & H2). cbn [fst snd] in *. subst nm. by exists a'.
Qed.

(** When the transformation completes, every text element has a fill: the
    colour of the role "overlay" when it had none in the input, the colour
    of the role "text" when its fill was "grey"; no rule after rule 7
    changes these two fills. *)
Theorem text_elements_filled d st' q (a : gmap string string) :
  recolor (State rose_pine d) = Ok tt st' →
  q ≠ [] → label q d = Some ("text", a) →
  ∃ a', label q (soup st') = Some ("text", a')
        ∧ is_Some (a' !! "fill")
        ∧ (a !! "fill" = None → a' !! "fill" = Some "#26233a")
        ∧ (a !! "fill" = Some "grey" → a' !! "fill" = Some "#e0def4").
Proof.
  intros Hrun Hq Hl.
  apply recolor_halves in Hrun as (d1 & _ & Hlab & Hrun).
  destruct (text_effects a) as (a' & Ha' & Hfill).
  exists a'. split; [|exact Hfill].
  eapply run_rules_frame; [exact Hrun| |].
  - cbn [soup]. rewrite Hlab, Hl by exact Hq. cbn [fmap option_fmap option_map].
    by rewrite Ha'.
  - unfold rules_nested.
    repeat constructor; cbn [unselected rule_selectors fmap list_fmap fst];
      repeat constructor.
Qed.

Lemma text_elements_filled_witness :
  ∃ a', label [0; 1] (soup (State rose_pine (recolored sample_css))) = Some ("text", a')
        ∧ is_Some (a' !! "fill")
        ∧ ((∅ : gmap string string) !! "fill" = None → a' !! "fill" = Some "#26233a")
        ∧ ((∅ : gmap string string) !! "fill" = Some "grey"
           → a' !! "fill" = Some "#e0def4").
Proof.
  apply (text_elements_filled sample_css (State rose_pine (recolored sample_css)) [0; 1]).
  - vm_compute. reflexivity.
  - done.
  - reflexivity.
Defined.
